(** * Leo chat companion: the state logic of [App.tsx]

    A shallow embedding of the two handlers of the [App] component,
    [handleSend] (text chat and image requests) and [toggleLive] with the
    callbacks it registers on the live session (audio scheduling and
    interruption), together with the properties of the message list and
    of the playback schedule.

    Conventions.
    - A JavaScript string is a [string]; every [ascii] is one code unit
      below 256.
    - [Date.now()] is a reading supplied by the environment, an integer
      number of milliseconds ([Z]).
    - Audio times ([AudioContext.currentTime], [AudioBuffer.duration],
      [nextStartTimeRef]) are counted in output sample frames ([N]); the
      code only compares and adds them.
    - React state is a store; [setX(prev => ...)] applies its updater to
      the store, while the values a handler reads from its closure
      ([messages], [input], [leoState]) are those of the render that
      created it.
    - A JavaScript [Set] is the list of its elements in insertion order.
    - An [async] function runs in pieces, each from one [await] to the
      next; [handleSend] is the call with its pieces run one after
      another, and [sendRuns] gives the pieces. *)

From Stdlib Require Import ZArith NArith Ascii String List Bool Lia.
From Stdlib Require Import DecimalString.
From stdpp Require Import base decidable list strings.
Import ListNotations.
Local Open Scope string_scope.
Local Open Scope list_scope.

(** ** types.ts *)

Inductive Emotion := neutral | happy | concerned | thinking.

Inductive Role := user | leo.

Record SourceRef := { uri : string; title : string }.

Record Message := mkMessage {
  id : string;
  role : Role;
  text : string;
  timestamp : Z;
  sources : option (list SourceRef);
  isSearching : option bool;
  imageUrl : option string
}.

Record LeoState := mkLeoState {
  emotion : Emotion;
  isSpeaking : bool;
  isThinking : bool;
  isLive : bool
}.

(** ** Strings as the handlers use them *)

Module Js.

(** [WhiteSpace] and [LineTerminator] code units below 256: TAB, LF, VT,
    FF, CR, SP and NBSP. *)
Definition isWhiteSpace (c : ascii) : bool :=
  let n := nat_of_ascii c in
  (Nat.leb 9 n && Nat.leb n 13) || Nat.eqb n 32 || Nat.eqb n 160.

Fixpoint trimStart (s : string) : string :=
  match s with
  | EmptyString => EmptyString
  | String c s' => if isWhiteSpace c then trimStart s' else s
  end.

(** Drops the white space at the end: a character is kept when it is not
    white space or when something is kept after it. *)
Fixpoint trimEnd (s : string) : string :=
  match s with
  | EmptyString => EmptyString
  | String c s' =>
      match trimEnd s' with
      | EmptyString => if isWhiteSpace c then EmptyString else String c EmptyString
      | t => String c t
      end
  end.

(** [String.prototype.trim] *)
Definition trim (s : string) : string := trimEnd (trimStart s).

(** ToBoolean on a string: only the empty string is falsy. *)
Definition truthy (s : string) : bool :=
  match s with EmptyString => false | _ => true end.

(** [a || b] on an optional string argument and a string. *)
Definition orElse (a : option string) (b : string) : string :=
  match a with
  | Some s => if truthy s then s else b
  | None => b
  end.

(** Canonicalize of a case-insensitive, non-unicode regular expression:
    the upper case of the code unit. Below 128 that maps a-z to A-Z;
    above, the upper case is never below 128, so leaving those units
    alone does not change which of them equal an ASCII pattern
    character. *)
Definition canonicalize (c : ascii) : ascii :=
  let n := nat_of_ascii c in
  if Nat.leb 97 n && Nat.leb n 122 then ascii_of_nat (n - 32) else c.

(** Does the literal [p] match at the start of [s], ignoring case? *)
Fixpoint matchLiteral (p s : string) : bool :=
  match p, s with
  | EmptyString, _ => true
  | String _ _, EmptyString => false
  | String a p', String b s' =>
      if Ascii.eqb (canonicalize a) (canonicalize b) then matchLiteral p' s' else false
  end.

(** [RegExp.prototype.test] for an alternation of literals with the [i]
    flag and no [g] flag: the first position at which an alternative
    matches decides. *)
Fixpoint test (alts : list string) (s : string) : bool :=
  existsb (fun p => matchLiteral p s) alts
  || match s with
     | EmptyString => false
     | String _ s' => test alts s'
     end.

(** [Number.prototype.toString] on an integer (decimal, with a sign for
    negatives). *)
Definition toString (z : Z) : string := NilZero.string_of_int (Z.to_int z).

(** [Array.prototype.slice(-n)]: the last [n] elements, all of them when
    there are fewer. *)
Definition sliceLast {A} (n : nat) (l : list A) : list A :=
  skipn (length l - n) l.

(** [Set.prototype.add] and [Set.prototype.delete] on a set kept as the
    list of its elements in insertion order: an element that is already
    there keeps its place. *)
Definition setAdd {A} `{EqDecision A} (x : A) (s : list A) : list A :=
  if decide (x ∈ s) then s else s ++ [x].

Definition setDelete {A} `{EqDecision A} (x : A) (s : list A) : list A :=
  filter (fun y => y <> x) s.

End Js.

(** ** What the component talks to *)

(** One entry of the role-tagged history of a chat request:
    [{ role, parts: [{ text }] }]. *)
Record Part := { partText : string }.
Record Content := { contentRole : string; parts : list Part }.

(** A decoded [AudioBuffer]: only its duration is used. *)
Record AudioBuffer := { duration : N }.

(** An [AudioBufferSourceNode], by identity. *)
Definition SourceNode := positive.

(** The calls that leave the component, in the order they are made. *)
Inductive Effect :=
| ConsoleError (args : list string)
| GenerateImage (prompt : string)
| ChatRequest (prompt : string) (history : list Content)
| Reload
| GetUserMedia
| LiveConnect
| CaptureStart
| SourceStart (source : SourceNode) (when : N) (buffer : AudioBuffer)
| SourceStop (source : SourceNode).

(** ** The component's state *)

(** What one render hands to the handlers it creates. *)
Record Render := {
  messages : list Message;
  input : string;
  leoState : LeoState
}.

(** The React state ([st_*]), the refs, the allocation counter that gives
    every created source node its identity, and the effects so far. *)
Record World := mkWorld {
  st_messages : list Message;
  st_input : string;
  st_leoState : LeoState;
  inputAudioContext : bool;
  outputAudioContext : bool;
  liveSession : bool;
  nextStartTime : N;
  activeSources : list SourceNode;
  nextNode : SourceNode;
  effects : list Effect
}.

Definition render (w : World) : Render :=
  {| messages := st_messages w; input := st_input w; leoState := st_leoState w |}.

Definition setMessages (f : list Message -> list Message) (w : World) : World :=
  mkWorld (f (st_messages w)) (st_input w) (st_leoState w) (inputAudioContext w)
    (outputAudioContext w) (liveSession w) (nextStartTime w) (activeSources w)
    (nextNode w) (effects w).

Definition setInput (v : string) (w : World) : World :=
  mkWorld (st_messages w) v (st_leoState w) (inputAudioContext w)
    (outputAudioContext w) (liveSession w) (nextStartTime w) (activeSources w)
    (nextNode w) (effects w).

Definition setLeoState (f : LeoState -> LeoState) (w : World) : World :=
  mkWorld (st_messages w) (st_input w) (f (st_leoState w)) (inputAudioContext w)
    (outputAudioContext w) (liveSession w) (nextStartTime w) (activeSources w)
    (nextNode w) (effects w).

Definition setAudioContexts (i o : bool) (w : World) : World :=
  mkWorld (st_messages w) (st_input w) (st_leoState w) i o (liveSession w)
    (nextStartTime w) (activeSources w) (nextNode w) (effects w).

Definition setLiveSession (v : bool) (w : World) : World :=
  mkWorld (st_messages w) (st_input w) (st_leoState w) (inputAudioContext w)
    (outputAudioContext w) v (nextStartTime w) (activeSources w) (nextNode w)
    (effects w).

Definition setNextStartTime (t : N) (w : World) : World :=
  mkWorld (st_messages w) (st_input w) (st_leoState w) (inputAudioContext w)
    (outputAudioContext w) (liveSession w) t (activeSources w) (nextNode w)
    (effects w).

Definition setActiveSources (s : list SourceNode) (w : World) : World :=
  mkWorld (st_messages w) (st_input w) (st_leoState w) (inputAudioContext w)
    (outputAudioContext w) (liveSession w) (nextStartTime w) s (nextNode w)
    (effects w).

Definition setNextNode (p : SourceNode) (w : World) : World :=
  mkWorld (st_messages w) (st_input w) (st_leoState w) (inputAudioContext w)
    (outputAudioContext w) (liveSession w) (nextStartTime w) (activeSources w)
    p (effects w).

Definition emit (e : Effect) (w : World) : World :=
  mkWorld (st_messages w) (st_input w) (st_leoState w) (inputAudioContext w)
    (outputAudioContext w) (liveSession w) (nextStartTime w) (activeSources w)
    (nextNode w) (effects w ++ [e]).

(** Object spreads [{ ...prev, field: v }] on [LeoState] and [Message]. *)
Definition withEmotion (e : Emotion) (s : LeoState) : LeoState :=
  mkLeoState e (isSpeaking s) (isThinking s) (isLive s).
Definition withSpeaking (b : bool) (s : LeoState) : LeoState :=
  mkLeoState (emotion s) b (isThinking s) (isLive s).
Definition withThinking (b : bool) (s : LeoState) : LeoState :=
  mkLeoState (emotion s) (isSpeaking s) b (isLive s).
Definition withLive (b : bool) (s : LeoState) : LeoState :=
  mkLeoState (emotion s) (isSpeaking s) (isThinking s) b.
Definition withText (t : string) (m : Message) : Message :=
  mkMessage (id m) (role m) t (timestamp m) (sources m) (isSearching m) (imageUrl m).

(** The state of the first render; [t0] is the [Date.now()] of the
    welcome message. *)
Definition welcomeText : string :=
  "Yo. I'm Leo. Think of me as your smart, slightly chaotic friend who actually has a personality. Want to chat, argue, or see me visualize something wild?".

Definition initialWorld (t0 : Z) : World :=
  {| st_messages := [mkMessage "welcome" leo welcomeText t0 None None None];
     st_input := "";
     st_leoState := mkLeoState neutral false false false;
     inputAudioContext := false;
     outputAudioContext := false;
     liveSession := false;
     nextStartTime := 0;
     activeSources := [];
     nextNode := 1%positive;
     effects := [] |}.

(** [initAudioContexts]: both contexts exist afterwards. The two
    constructors are taken to succeed; a platform on which
    [new AudioContext] throws is outside the model. *)
Definition initAudioContexts (w : World) : World :=
  setAudioContexts true true w.

(** ** handleSend *)

Inductive ImageOutcome :=
| ImageReturns (imageUrl : option string)
| ImageThrows (e : string).

Inductive StreamEnd := StreamDone | StreamFails.

Inductive ChatOutcome :=
| ChatThrows
| ChatYields (chunks : list string) (ending : StreamEnd).

(** The environment of one call: the readings of [Date.now()] in call
    order, and the two services of [geminiService]. *)
Record SendEnv := {
  now : nat -> Z;
  generateLeoImage : string -> ImageOutcome;
  chatWithLeoStream : string -> list Content -> ChatOutcome
}.

Definition imageIntent : list string :=
  ["generate"; "visualize"; "create"; "show me"].

Definition isImageReq (textToSend : string) : bool :=
  Js.test imageIntent textToSend.

Definition captionText : string :=
  "Boom. Here's that visualization you wanted. Absolute fire.".

Definition toContent (m : Message) : Content :=
  {| contentRole := match role m with leo => "model" | user => "user" end;
     parts := [ {| partText := text m |} ] |}.

(** [prev.map(m => m.id === leoId ? { ...m, text: fullText } : m)] *)
Definition setTextById (leoId fullText : string) (prev : list Message) : list Message :=
  map (fun m => if String.eqb (id m) leoId then withText fullText m else m) prev.

(** The [for await] loop over the chunks that arrive. *)
Fixpoint streamLoop (leoId : string) (chunks : list string) (fullText : string)
    (w : World) : string * World :=
  match chunks with
  | [] => (fullText, w)
  | chunk :: rest =>
      let fullText := fullText +:+ chunk in
      streamLoop leoId rest fullText (setMessages (setTextById leoId fullText) w)
  end.

Definition concernedState (prev : LeoState) : LeoState :=
  withEmotion concerned (withThinking false prev).

(** Lines 167-186: the placeholder and the streamed reply. The third and
    fourth [Date.now()] of the call are read here. *)
Definition textPath (env : SendEnv) (r : Render) (textToSend : string)
    (w : World) : World :=
  let leoId := Js.toString (now env 2) in
  let w := setMessages
             (fun prev => prev ++ [mkMessage leoId leo "" (now env 3) None None None]) w in
  let history := map toContent (Js.sliceLast 6 (messages r)) in
  let w := emit (ChatRequest textToSend history) w in
  match chatWithLeoStream env textToSend history with
  | ChatThrows => setLeoState concernedState w
  | ChatYields chunks ending =>
      let w := setLeoState (fun prev => withEmotion neutral (withThinking false prev)) w in
      let w := snd (streamLoop leoId chunks "" w) in
      match ending with
      | StreamDone => w
      | StreamFails => setLeoState concernedState w
      end
  end.

(** Lines 154-162: the caption message of a generated image. *)
Definition imageReply (env : SendEnv) (url : string) (w : World) : World :=
  let w := setMessages
             (fun prev => prev ++ [mkMessage (Js.toString (now env 2)) leo captionText
                                     (now env 3) None None (Some url)]) w in
  setLeoState (fun prev => withEmotion happy (withThinking false prev)) w.

(** Lines 138-187: the call with its pieces run one after another
    ([sendRuns] gives the pieces, between which the code awaits). *)
Definition handleSend (env : SendEnv) (r : Render) (textOverride : option string)
    (w : World) : World :=
  let textToSend := Js.orElse textOverride (input r) in
  if negb (Js.truthy (Js.trim textToSend)) || isThinking (leoState r) then w
  else
    let w := initAudioContexts w in
    let userMsg := mkMessage (Js.toString (now env 0)) user textToSend (now env 1)
                     None None None in
    let w := setMessages (fun prev => prev ++ [userMsg]) w in
    let w := setInput "" w in
    let w := setLeoState (withThinking true) w in
    if isImageReq textToSend then
      let w := emit (GenerateImage textToSend) w in
      match generateLeoImage env textToSend with
      | ImageReturns (Some url) =>
          if Js.truthy url then imageReply env url w
          else textPath env r textToSend w
      | ImageReturns None => textPath env r textToSend w
      | ImageThrows e => textPath env r textToSend (emit (ConsoleError [e]) w)
      end
    else textPath env r textToSend w.

(** ** toggleLive *)

Inductive Call := Succeeds | Raises (e : string).

Inductive MicOutcome := MicGranted | MicDenied (err : string).

(** How the promise of an [async] handler settles. *)
Inductive Completion := Resolves | Rejects (e : string).

Record LiveEnv := {
  getGeminiClient : Call;
  getUserMedia : MicOutcome;
  connect : Call
}.

(** Lines 54-136. [getGeminiClient] is called before the [try]; the
    microphone request and the connection are inside it. *)
Definition toggleLive (env : LiveEnv) (r : Render) (w : World) : World * Completion :=
  if isLive (leoState r) then (emit Reload w, Resolves)
  else
    let w := initAudioContexts w in
    match getGeminiClient env with
    | Raises e => (w, Rejects e)
    | Succeeds =>
        let w := emit GetUserMedia w in
        match getUserMedia env with
        | MicDenied err =>
            (emit (ConsoleError ["Mic Access Failed:"; err]) w, Resolves)
        | MicGranted =>
            let w := emit LiveConnect w in
            match connect env with
            | Raises e =>
                (emit (ConsoleError ["Mic Access Failed:"; e]) w, Resolves)
            | Succeeds => (setLiveSession true w, Resolves)
            end
        end
    end.

(** ** The callbacks of the live session *)

(** The two fields of a server message that [onmessage] reads. *)
Record ServerMessage := {
  interrupted : bool;
  audioData : option string
}.

(** [onopen] *)
Definition onopen (w : World) : World :=
  emit CaptureStart (setLeoState (fun prev => withEmotion happy (withLive true prev)) w).

(** [onmessage] up to its [await]: an interruption is handled at once;
    an audio frame is handed to the decoder ([Some] of its payload), and
    the rest of the callback runs when the decoder is done. *)
Definition onmessage (msg : ServerMessage) (w : World) : World * option string :=
  if interrupted msg then
    let w := fold_left (fun w source => emit (SourceStop source) w)
               (activeSources w) w in
    let w := setActiveSources [] w in
    (setNextStartTime 0 w, None)
  else
    match audioData msg with
    | Some data =>
        if Js.truthy data && outputAudioContext w then (w, Some data) else (w, None)
    | None => (w, None)
    end.

(** [onmessage] after its [await] (lines 104-120): the decoded buffer is
    given a new source node and scheduled. [currentTime] is the reading
    of the output clock. *)
Definition schedule (buffer : AudioBuffer) (currentTime : N) (w : World) : World :=
  let source := nextNode w in
  let w := setNextNode (Pos.succ source) w in
  let w := setNextStartTime (N.max (nextStartTime w) currentTime) w in
  let w := emit (SourceStart source (nextStartTime w) buffer) w in
  let w := setNextStartTime (nextStartTime w + duration buffer) w in
  let w := setActiveSources (Js.setAdd source (activeSources w)) w in
  setLeoState (withSpeaking true) w.

(** [source.onended] *)
Definition onended (source : SourceNode) (w : World) : World :=
  let w := setActiveSources (Js.setDelete source (activeSources w)) w in
  if Nat.eqb (length (activeSources w)) 0 then setLeoState (withSpeaking false) w
  else w.

(** [onerror] and [onclose] *)
Definition onerror (e : string) (w : World) : World :=
  emit (ConsoleError ["Live Error:"; e]) w.

Definition onclose (w : World) : World := setLeoState (withLive false) w.

(** The callbacks run one at a time, each to its end or to its [await]. *)
Inductive LiveEvent :=
| Open
| Incoming (msg : ServerMessage)
| Decoded (buffer : AudioBuffer) (currentTime : N)
| Ended (source : SourceNode)
| Failed (e : string)
| Closed.

Definition liveStep (w : World) (ev : LiveEvent) : World :=
  match ev with
  | Open => onopen w
  | Incoming msg => fst (onmessage msg w)
  | Decoded buffer currentTime => schedule buffer currentTime w
  | Ended source => onended source w
  | Failed e => onerror e w
  | Closed => onclose w
  end.

Definition liveRun (evs : list LiveEvent) (w : World) : World :=
  fold_left liveStep evs w.

Definition isInterruption (ev : LiveEvent) : bool :=
  match ev with
  | Incoming msg => interrupted msg
  | _ => false
  end.

(** The playback intervals requested so far, as (start, end), oldest
    first. *)
Fixpoint scheduled (es : list Effect) : list (N * N) :=
  match es with
  | [] => []
  | SourceStart _ when buffer :: es' => (when, (when + duration buffer)%N) :: scheduled es'
  | _ :: es' => scheduled es'
  end.

(** The source nodes started and stopped so far. *)
Fixpoint started (es : list Effect) : list SourceNode :=
  match es with
  | [] => []
  | SourceStart source _ _ :: es' => source :: started es'
  | _ :: es' => started es'
  end.

Fixpoint stopped (es : list Effect) : list SourceNode :=
  match es with
  | [] => []
  | SourceStop source :: es' => source :: stopped es'
  | _ :: es' => stopped es'
  end.

(** ** Vocabulary of the properties *)

(** Blank or white-space-only text. *)
Definition blank (s : string) : Prop :=
  forall c, In c (list_ascii_of_string s) -> Js.isWhiteSpace c = true.

(** [k] occurs in [s], letters compared without regard to case. *)
Definition occursIgnoringCase (k s : string) : Prop :=
  exists before hit after,
    s = before +:+ hit +:+ after /\
    map Js.canonicalize (list_ascii_of_string hit)
    = map Js.canonicalize (list_ascii_of_string k).

(** The fragments of a stream, joined in arrival order. *)
Fixpoint joinAll (chunks : list string) : string :=
  match chunks with
  | [] => ""
  | chunk :: rest => chunk +:+ joinAll rest
  end.

(** The fragments that arrive before a reply ends or fails. *)
Definition delivered (o : ChatOutcome) : list string :=
  match o with
  | ChatThrows => []
  | ChatYields chunks _ => chunks
  end.

(** Two messages that agree on every field but [text]. *)
Definition sameButText (m1 m2 : Message) : Prop :=
  id m1 = id m2 /\ role m1 = role m2 /\ timestamp m1 = timestamp m2 /\
  sources m1 = sources m2 /\ isSearching m1 = isSearching m2 /\
  imageUrl m1 = imageUrl m2.

(** The text a call submits, and whether the call goes past line 140. *)
Definition textToSend (r : Render) (textOverride : option string) : string :=
  Js.orElse textOverride (input r).

Definition accepted (r : Render) (textOverride : option string) : Prop :=
  Js.truthy (Js.trim (textToSend r textOverride)) = true /\
  isThinking (leoState r) = false.

(** The messages a call creates. *)
Definition userMsg (env : SendEnv) (t : string) : Message :=
  mkMessage (Js.toString (now env 0)) user t (now env 1) None None None.

Definition placeholder (env : SendEnv) : Message :=
  mkMessage (Js.toString (now env 2)) leo "" (now env 3) None None None.

Definition captionMsg (env : SendEnv) (url : string) : Message :=
  mkMessage (Js.toString (now env 2)) leo captionText (now env 3) None None (Some url).

(** The world after lines 142-146. *)
Definition submitted (env : SendEnv) (t : string) (w : World) : World :=
  setLeoState (withThinking true)
    (setInput "" (setMessages (fun prev => prev ++ [userMsg env t]) (initAudioContexts w))).

(** The image a call obtains: [Some url] exactly when the text has image
    intent and [generateLeoImage] returns a non-empty URL. *)
Definition imageObtained (env : SendEnv) (t : string) : option string :=
  if isImageReq t then
    match generateLeoImage env t with
    | ImageReturns (Some url) => if Js.truthy url then Some url else None
    | _ => None
    end
  else None.

(** What an attempted image generation leaves in the effects when it
    gives no image. *)
Definition failedAttempt (env : SendEnv) (t : string) : list Effect :=
  match generateLeoImage env t with
  | ImageThrows e => [GenerateImage t; ConsoleError [e]]
  | _ => [GenerateImage t]
  end.

Definition emitAll (es : list Effect) (w : World) : World := fold_left (fun w e => emit e w) es w.

(** The effects of the image branch when the call goes on to the text
    path. *)
Definition attempt (env : SendEnv) (t : string) : list Effect :=
  if isImageReq t then failedAttempt env t else [].

(** The message list after the fragments [chunks] have been applied to
    the messages whose id is [leoId]. *)
Definition streamed (leoId : string) (chunks : list string) (l : list Message)
    : list Message :=
  match chunks with
  | [] => l
  | _ => setTextById leoId (joinAll chunks) l
  end.

(** The flags after the reply [o], from those before the request. *)
Definition replyState (o : ChatOutcome) (prev : LeoState) : LeoState :=
  match o with
  | ChatYields _ StreamDone => mkLeoState neutral (isSpeaking prev) false (isLive prev)
  | _ => mkLeoState concerned (isSpeaking prev) false (isLive prev)
  end.

(** The history of a request made from render [r]. *)
Definition historyOf (r : Render) : list Content :=
  map toContent (Js.sliceLast 6 (messages r)).

(** The chat requests and image requests among some effects. *)
Fixpoint chatRequests (es : list Effect) : list (string * list Content) :=
  match es with
  | [] => []
  | ChatRequest prompt history :: es' => (prompt, history) :: chatRequests es'
  | _ :: es' => chatRequests es'
  end.

Fixpoint imageRequests (es : list Effect) : list string :=
  match es with
  | [] => []
  | GenerateImage prompt :: es' => prompt :: imageRequests es'
  | _ :: es' => imageRequests es'
  end.

(** The world in which the [for await] loop of an accepted call on the
    text path starts. *)
Definition loopStart (env : SendEnv) (r : Render) (t : string) (w : World) : World :=
  setLeoState (fun prev => withEmotion neutral (withThinking false prev))
    (emit (ChatRequest t (historyOf r))
       (setMessages (fun prev => prev ++ [placeholder env])
          (emitAll (attempt env t) (submitted env t w)))).

(** The text of the message in flight: the last of the list. *)
Definition inflightText (w : World) : option string :=
  text <$> last (st_messages w).

(** An environment whose clock does not advance during the call, with a
    reply in two fragments. *)
Definition sameTick : SendEnv :=
  {| now := fun _ => 1700000000000%Z;
     generateLeoImage := fun _ => ImageReturns None;
     chatWithLeoStream := fun _ _ => ChatYields ["Hel"; "lo!"] StreamDone |}.

(** The same reply with a clock that advances by one millisecond per
    reading. *)
Definition ticking : SendEnv :=
  {| now := fun k => (1700000000000 + Z.of_nat k)%Z;
     generateLeoImage := fun _ => ImageReturns None;
     chatWithLeoStream := fun _ _ => ChatYields ["Hel"; "lo!"] StreamDone |}.

(** A reply that fails after its first fragment, and an image service
    that throws. *)
Definition breaking : SendEnv :=
  {| now := fun k => (1700000000000 + Z.of_nat k)%Z;
     generateLeoImage := fun _ => ImageThrows "quota";
     chatWithLeoStream := fun _ _ => ChatYields ["Hel"] StreamFails |}.

(** How an entry of the history is made from a message. *)
Definition entryOf (m : Message) (c : Content) : Prop :=
  contentRole c = match role m with leo => "model" | user => "user" end /\
  parts c = [ {| partText := text m |} ].

(** The idle state of the live controller: not live, no session. *)
Definition idle (w : World) : Prop :=
  isLive (st_leoState w) = false /\ liveSession w = false.

(** An environment in which the user refuses the microphone. *)
Definition micRefused : LiveEnv :=
  {| getGeminiClient := Succeeds;
     getUserMedia := MicDenied "NotAllowedError";
     connect := Succeeds |}.

Definition isDecoded (ev : LiveEvent) : bool :=
  match ev with
  | Decoded _ _ => true
  | _ => false
  end.

Definition interruption : ServerMessage :=
  {| interrupted := true; audioData := None |}.

(** Two frames of five ticks that arrive back to back, and the same two
    with an interruption between them. *)
Definition twoFrames : list LiveEvent :=
  [Decoded {| duration := 5 |} 10; Decoded {| duration := 5 |} 12].

Definition interruptedFrames : list LiveEvent :=
  [Decoded {| duration := 5 |} 10; Incoming interruption;
   Decoded {| duration := 5 |} 12].

(** Source nodes are numbered as they are created: whatever has been
    started has a number below the next one. *)
Definition numbered (w : World) : Prop :=
  forall s, In s (started (effects w)) -> (s < nextNode w)%positive.

(** No interruption among some events. *)
Definition uninterrupted (evs : list LiveEvent) : Prop :=
  forall ev, In ev evs -> isInterruption ev = false.

(** Intervals that follow one another from time [c] on: each starts no
    earlier than the end of the one before. *)
Fixpoint chained (c : N) (l : list (N * N)) : Prop :=
  match l with
  | [] => True
  | (s, e) :: l' => (c <= s)%N /\ (s <= e)%N /\ chained e l'
  end.

(** The end of the last interval of [l], or [c] when there is none. *)
Definition lastEnd (c : N) (l : list (N * N)) : N :=
  fold_left (fun _ i => snd i) l c.

(** ** The rest of the component *)

(** The [disabled] attribute of the submit button (line 245). *)
Definition submitDisabled (r : Render) : bool :=
  negb (Js.truthy (Js.trim (input r))) || isThinking (leoState r).

(** The form's [onSubmit] (line 234): [handleSend()]. *)
Definition onSubmit (env : SendEnv) (r : Render) (w : World) : World :=
  handleSend env r None w.

(** The double quote, and the template literal of [onVerify] (line 231). *)
Definition quote : string := String (ascii_of_nat 34) EmptyString.

Definition verifyText (t : string) : string :=
  "Double check this fact for me, Leo: " +:+ quote +:+ t +:+ quote.

Definition onVerify (env : SendEnv) (r : Render) (t : string) (w : World) : World :=
  handleSend env r (Some (verifyText t)) w.

(** [handleSend], run by run. The call suspends at
    [await generateLeoImage] (line 152) and at every turn of the
    [for await] loop (line 180); each piece between two suspensions runs
    to its end, and other calls and callbacks can run between two
    pieces. *)

(** Lines 167-178, and the [catch] when [chatWithLeoStream] itself
    throws: the placeholder, the request and the flags. *)
Definition startChat (env : SendEnv) (r : Render) (t : string) (w : World) : World :=
  let w := setMessages (fun prev => prev ++ [placeholder env]) w in
  let w := emit (ChatRequest t (historyOf r)) w in
  match chatWithLeoStream env t (historyOf r) with
  | ChatThrows => setLeoState concernedState w
  | ChatYields _ _ =>
      setLeoState (fun prev => withEmotion neutral (withThinking false prev)) w
  end.

(** One turn of the loop per fragment (lines 181-182). *)
Fixpoint chunkRuns (leoId : string) (chunks : list string) (fullText : string)
    : list (World -> World) :=
  match chunks with
  | [] => []
  | chunk :: rest =>
      let fullText := fullText +:+ chunk in
      setMessages (setTextById leoId fullText) :: chunkRuns leoId rest fullText
  end.

(** The turns of the loop and, when the stream fails, the [catch]. *)
Definition streamRuns (env : SendEnv) (r : Render) (t : string) : list (World -> World) :=
  match chatWithLeoStream env t (historyOf r) with
  | ChatThrows => []
  | ChatYields chunks ending =>
      chunkRuns (Js.toString (now env 2)) chunks "" ++
      match ending with
      | StreamDone => []
      | StreamFails => [setLeoState concernedState]
      end
  end.

(** The pieces of one call, in order. A refused call has none. The image
    service is taken to answer after the [await], also when it fails. *)
Definition sendRuns (env : SendEnv) (r : Render) (textOverride : option string)
    : list (World -> World) :=
  let t := Js.orElse textOverride (input r) in
  if negb (Js.truthy (Js.trim t)) || isThinking (leoState r) then []
  else if isImageReq t then
    (fun w => emit (GenerateImage t) (submitted env t w)) ::
    match generateLeoImage env t with
    | ImageReturns (Some url) =>
        if Js.truthy url then [imageReply env url]
        else startChat env r t :: streamRuns env r t
    | ImageReturns None => startChat env r t :: streamRuns env r t
    | ImageThrows e =>
        (fun w => startChat env r t (emit (ConsoleError [e]) w)) :: streamRuns env r t
    end
  else (fun w => startChat env r t (submitted env t w)) :: streamRuns env r t.

(** Pieces run one after another, with nothing in between. *)
Definition runAll (runs : list (World -> World)) (w : World) : World :=
  fold_left (fun w run => run w) runs w.

(** One step of the component: a call of a handler, made from some
    render and taken as a whole, or a callback of the live session. *)
Inductive AppEvent :=
| Send (env : SendEnv) (r : Render) (textOverride : option string)
| Toggle (env : LiveEnv) (r : Render)
| Callback (ev : LiveEvent).

Definition appStep (w : World) (e : AppEvent) : World :=
  match e with
  | Send env r textOverride => handleSend env r textOverride w
  | Toggle env r => fst (toggleLive env r w)
  | Callback ev => liveStep w ev
  end.

Definition appRun (es : list AppEvent) (w : World) : World :=
  fold_left appStep es w.

(** ** More vocabulary *)

(** The assistant message an accepted call leaves at the end of the
    list. *)
Definition replyMsg (env : SendEnv) (r : Render) (t : string) : Message :=
  match imageObtained env t with
  | Some url => captionMsg env url
  | None =>
      mkMessage (Js.toString (now env 2)) leo
        (joinAll (delivered (chatWithLeoStream env t (historyOf r))))
        (now env 3) None None None
  end.

(** Effects that are not calls on a source node. *)
Definition offAudio (e : Effect) : bool :=
  match e with
  | SourceStart _ _ _ | SourceStop _ => false
  | _ => true
  end.

(** The part of the world that playback lives in. *)
Definition samePlayback (w w' : World) : Prop :=
  nextStartTime w' = nextStartTime w /\
  activeSources w' = activeSources w /\
  nextNode w' = nextNode w /\
  isSpeaking (st_leoState w') = isSpeaking (st_leoState w) /\
  exists added, effects w' = effects w ++ added /\ forallb offAudio added = true.

(** The books on source nodes are in order: every node is started at
    most once and numbered below the next one, [stop] is only called on
    started nodes, and an active node has been started and not
    stopped. *)
Definition bookkept (w : World) : Prop :=
  NoDup (started (effects w)) /\
  numbered w /\
  (forall s, In s (stopped (effects w)) -> In s (started (effects w))) /\
  (forall s, s ∈ activeSources w ->
     In s (started (effects w)) /\ ~ In s (stopped (effects w))).

(** Whether the session is open after some callbacks, from whether it
    was before: the last [Open] or [Closed] decides. *)
Fixpoint openAfter (b : bool) (evs : list LiveEvent) : bool :=
  match evs with
  | [] => b
  | Open :: evs' => openAfter true evs'
  | Closed :: evs' => openAfter false evs'
  | _ :: evs' => openAfter b evs'
  end.

(** Frames as the callbacks that schedule them, and intervals laid end
    to end from [c] on. *)
Definition decodedAll (frames : list (AudioBuffer * N)) : list LiveEvent :=
  map (fun f => Decoded (fst f) (snd f)) frames.

Fixpoint endToEnd (c : N) (frames : list (AudioBuffer * N)) : list (N * N) :=
  match frames with
  | [] => []
  | (buffer, _) :: frames' =>
      (c, (c + duration buffer)%N) :: endToEnd (c + duration buffer)%N frames'
  end.

(** Every frame is decoded no later than the counter stands when it is
    scheduled, the counter being [c] at the first. *)
Fixpoint onTime (c : N) (frames : list (AudioBuffer * N)) : Prop :=
  match frames with
  | [] => True
  | (buffer, currentTime) :: frames' =>
      (currentTime <= c)%N /\ onTime (c + duration buffer)%N frames'
  end.

(** Environments for the examples: an image service that delivers, a
    granted microphone, and a client that cannot be created. *)
Definition painting : SendEnv :=
  {| now := fun k => (1700000000000 + Z.of_nat k)%Z;
     generateLeoImage := fun _ => ImageReturns (Some "data:image/png;base64,AAAA");
     chatWithLeoStream := fun _ _ => ChatYields ["Hel"; "lo!"] StreamDone |}.

Definition micGranted : LiveEnv :=
  {| getGeminiClient := Succeeds; getUserMedia := MicGranted; connect := Succeeds |}.

Definition noClient : LiveEnv :=
  {| getGeminiClient := Raises "API key missing";
     getUserMedia := MicGranted; connect := Succeeds |}.

Definition audioFrame : ServerMessage :=
  {| interrupted := false; audioData := Some "AAAA" |}.


(** * Properties *)

Example trim_ex : Js.trim "  hi there  " = "hi there".
Proof. reflexivity. Qed.

Example toString_ex : Js.toString 1700000000000 = "1700000000000".
Proof. reflexivity. Qed.

Example isImageReq_ex : isImageReq "Please CREATE a cat" = true.
Proof. reflexivity. Qed.

(** ** Trimming and the intent pattern *)

Lemma trimStart_blank s : blank s -> Js.trimStart s = "".
Proof.
  induction s as [|c s IH]; intros Hb; simpl; [reflexivity|].
  rewrite (Hb c) by (simpl; auto).
  apply IH. intros c' Hc'. apply Hb. simpl; auto.
Qed.

Lemma trimStart_empty_blank s : Js.trimStart s = "" -> blank s.
Proof.
  induction s as [|c s IH]; simpl; intros H c' Hc'; [destruct Hc'|].
  destruct (Js.isWhiteSpace c) eqn:Hc; [|discriminate].
  destruct Hc' as [<-|Hc']; [exact Hc|]. now apply IH.
Qed.

Lemma trimEnd_keeps_first c s :
  Js.isWhiteSpace c = false -> Js.trimEnd (String c s) <> "".
Proof.
  intros Hc. simpl. destruct (Js.trimEnd s); [rewrite Hc|]; discriminate.
Qed.

Lemma trimStart_head s :
  Js.trimStart s = "" \/
  exists c s', Js.trimStart s = String c s' /\ Js.isWhiteSpace c = false.
Proof.
  induction s as [|c s IH]; simpl; [now left|].
  destruct (Js.isWhiteSpace c) eqn:Hc; [exact IH|].
  right. now exists c, s.
Qed.

Lemma trim_empty_iff_blank s : Js.trim s = "" <-> blank s.
Proof.
  unfold Js.trim. split.
  - intros H. apply trimStart_empty_blank.
    destruct (trimStart_head s) as [E|(c & s' & E & Hc)]; [exact E|].
    rewrite E in H. now apply trimEnd_keeps_first in H.
  - intros Hb. now rewrite trimStart_blank.
Qed.

Lemma truthy_false_iff s : Js.truthy s = false <-> s = "".
Proof. destruct s; simpl; split; congruence. Qed.

Lemma accepted_not_blank r ov :
  accepted r ov <-> ~ blank (textToSend r ov) /\ isThinking (leoState r) = false.
Proof.
  unfold accepted. rewrite <- trim_empty_iff_blank, <- truthy_false_iff.
  destruct (Js.truthy _); intuition congruence.
Qed.

(** [matchLiteral p s] holds exactly when [s] starts with a spelling of
    [p], up to case. *)
Lemma matchLiteral_spec p s :
  Js.matchLiteral p s = true <->
  exists hit after,
    s = hit +:+ after /\
    map Js.canonicalize (list_ascii_of_string hit)
    = map Js.canonicalize (list_ascii_of_string p).
Proof.
  revert s. induction p as [|a p IH]; intros s; simpl.
  - split; [intros _; now exists "", s|reflexivity].
  - destruct s as [|b s].
    + split; [discriminate|].
      intros (hit & after & E & Hm). destruct hit; simpl in *; discriminate.
    + destruct (Ascii.eqb_spec (Js.canonicalize a) (Js.canonicalize b)) as [Hab|Hab].
      * rewrite IH. split.
        -- intros (hit & after & -> & Hm). exists (String b hit), after.
           simpl. split; [reflexivity|]. now rewrite Hm, Hab.
        -- intros (hit & after & E & Hm). destruct hit as [|h hit]; [discriminate|].
           simpl in E, Hm. injection E as -> ->. injection Hm as _ Hm.
           now exists hit, after.
      * split; [discriminate|].
        intros (hit & after & E & Hm). destruct hit as [|h hit]; [discriminate|].
        simpl in E, Hm. injection E as -> ->. injection Hm as Hh _. congruence.
Qed.

Lemma existsb_matchLiteral alts s :
  existsb (fun p => Js.matchLiteral p s) alts = true <->
  exists k, In k alts /\ Js.matchLiteral k s = true.
Proof. rewrite existsb_exists. reflexivity. Qed.

Lemma test_spec alts s :
  Js.test alts s = true <-> exists k, In k alts /\ occursIgnoringCase k s.
Proof.
  induction s as [|c s IH].
  - simpl. rewrite orb_false_r, existsb_matchLiteral. split.
    + intros (k & Hk & Hm). exists k. split; [exact Hk|].
      apply matchLiteral_spec in Hm as (hit & after & E & Hm).
      now exists "", hit, after.
    + intros (k & Hk & before & hit & after & E & Hm). exists k. split; [exact Hk|].
      apply matchLiteral_spec. destruct before; [|discriminate].
      now exists hit, after.
  - simpl. rewrite orb_true_iff, existsb_matchLiteral, IH. split.
    + intros [(k & Hk & Hm)|(k & Hk & before & hit & after & E & Hm)].
      * exists k. split; [exact Hk|].
        apply matchLiteral_spec in Hm as (hit & after & E & Hm).
        now exists "", hit, after.
      * exists k. split; [exact Hk|].
        exists (String c before), hit, after. simpl. now rewrite E.
    + intros (k & Hk & before & hit & after & E & Hm).
      destruct before as [|b before].
      * left. exists k. split; [exact Hk|]. apply matchLiteral_spec.
        now exists hit, after.
      * right. simpl in E. injection E as _ E. exists k. split; [exact Hk|].
        now exists before, hit, after.
Qed.

(** ** The message list under [handleSend] *)

Lemma setTextById_length leoId t l : length (setTextById leoId t l) = length l.
Proof. unfold setTextById. now rewrite length_map. Qed.

Lemma setTextById_twice leoId t1 t2 l :
  setTextById leoId t2 (setTextById leoId t1 l) = setTextById leoId t2 l.
Proof.
  unfold setTextById. rewrite map_map. apply map_ext. intros m.
  destruct (String.eqb (id m) leoId) eqn:E; simpl; rewrite E; reflexivity.
Qed.

Lemma setTextById_app leoId t l1 l2 :
  setTextById leoId t (l1 ++ l2) = setTextById leoId t l1 ++ setTextById leoId t l2.
Proof. unfold setTextById. apply map_app. Qed.

Lemma setTextById_sameButText leoId t l :
  Forall2 sameButText (setTextById leoId t l) l.
Proof.
  induction l as [|m l IH]; simpl; constructor; [|exact IH].
  destruct (String.eqb (id m) leoId); unfold sameButText; simpl; tauto.
Qed.

Lemma setTextById_other leoId t l :
  Forall (fun m => id m <> leoId) l -> setTextById leoId t l = l.
Proof.
  induction 1 as [|m l Hm _ IH]; simpl; [reflexivity|].
  rewrite IH. apply String.eqb_neq in Hm. now rewrite Hm.
Qed.

Lemma sameButText_refl m : sameButText m m.
Proof. unfold sameButText. tauto. Qed.

Lemma Forall2_sameButText_refl l : Forall2 sameButText l l.
Proof. induction l; constructor; auto using sameButText_refl. Qed.

Lemma streamed_sameButText leoId chunks l :
  Forall2 sameButText (streamed leoId chunks l) l.
Proof.
  destruct chunks; simpl; [apply Forall2_sameButText_refl|].
  apply setTextById_sameButText.
Qed.

Lemma streamed_snoc leoId chunks l m :
  id m = leoId -> text m = "" ->
  streamed leoId chunks (l ++ [m])
  = streamed leoId chunks l ++ [withText (joinAll chunks) m].
Proof.
  intros Hid Ht. destruct chunks as [|c cs].
  - simpl. destruct m; simpl in *; now subst.
  - unfold streamed. rewrite setTextById_app. simpl.
    apply String.eqb_eq in Hid. now rewrite Hid.
Qed.

Lemma append_cons c s t : String c s +:+ t = String c (s +:+ t).
Proof. reflexivity. Qed.

Lemma append_empty_r s : s +:+ "" = s.
Proof.
  induction s as [|c s IH]; [reflexivity|]. now rewrite append_cons, IH.
Qed.

Lemma append_assoc' a b c : (a +:+ b) +:+ c = a +:+ (b +:+ c).
Proof.
  induction a as [|x a IH]; [reflexivity|]. now rewrite !append_cons, IH.
Qed.

Lemma joinAll_app cs1 cs2 : joinAll (cs1 ++ cs2) = joinAll cs1 +:+ joinAll cs2.
Proof.
  induction cs1 as [|c cs1 IH]; simpl; [reflexivity|].
  now rewrite IH, append_assoc'.
Qed.

(** The loop leaves everything but the messages alone, and the messages
    are those of one update with the whole text. *)
Lemma streamLoop_closed leoId chunks fullText w :
  streamLoop leoId chunks fullText w
  = (fullText +:+ joinAll chunks,
     match chunks with
     | [] => w
     | _ => setMessages (setTextById leoId (fullText +:+ joinAll chunks)) w
     end).
Proof.
  revert fullText w. induction chunks as [|c cs IH]; intros fullText w; simpl.
  - now rewrite append_empty_r.
  - rewrite IH, append_assoc'. f_equal. destruct cs as [|c' cs].
    + simpl. now rewrite append_empty_r.
    + unfold setMessages; simpl. f_equal. apply setTextById_twice.
Qed.

(** The fragments are applied one after another: the loop over
    [cs1 ++ cs2] is the loop over [cs2] started where the loop over [cs1]
    stopped. *)
Lemma streamLoop_app leoId cs1 cs2 fullText w :
  streamLoop leoId (cs1 ++ cs2) fullText w
  = streamLoop leoId cs2 (fst (streamLoop leoId cs1 fullText w))
      (snd (streamLoop leoId cs1 fullText w)).
Proof.
  revert fullText w. induction cs1 as [|c cs1 IH]; intros; simpl; [reflexivity|].
  apply IH.
Qed.

Lemma textPath_closed env r t w :
  let o := chatWithLeoStream env t (historyOf r) in
  textPath env r t w
  = setLeoState (replyState o)
      (setMessages
         (fun prev => streamed (Js.toString (now env 2)) (delivered o)
                        (prev ++ [placeholder env]))
         (emit (ChatRequest t (historyOf r)) w)).
Proof.
  intros o. unfold textPath. fold (historyOf r). fold o. fold (placeholder env).
  destruct o as [|chunks ending]; [reflexivity|].
  rewrite streamLoop_closed. simpl.
  destruct chunks, ending; reflexivity.
Qed.

(** Emitting an effect leaves the React state alone. *)
Lemma emitAll_effects es w : effects (emitAll es w) = effects w ++ es.
Proof.
  revert w. induction es as [|e es IH]; intros w; simpl.
  - now rewrite app_nil_r.
  - unfold emitAll in *. simpl. rewrite IH. simpl. now rewrite <- app_assoc.
Qed.

Lemma emitAll_messages es w : st_messages (emitAll es w) = st_messages w.
Proof.
  revert w. induction es as [|e es IH]; intros w; [reflexivity|].
  unfold emitAll in *. simpl. now rewrite IH.
Qed.

Lemma emitAll_leoState es w : st_leoState (emitAll es w) = st_leoState w.
Proof.
  revert w. induction es as [|e es IH]; intros w; [reflexivity|].
  unfold emitAll in *. simpl. now rewrite IH.
Qed.

Lemma chatRequests_app es1 es2 :
  chatRequests (es1 ++ es2) = chatRequests es1 ++ chatRequests es2.
Proof.
  induction es1 as [|e es1 IH]; simpl; [reflexivity|].
  destruct e; simpl; now rewrite IH.
Qed.

Lemma imageRequests_app es1 es2 :
  imageRequests (es1 ++ es2) = imageRequests es1 ++ imageRequests es2.
Proof.
  induction es1 as [|e es1 IH]; simpl; [reflexivity|].
  destruct e; simpl; now rewrite IH.
Qed.

Lemma last_snoc' {A} (l : list A) x : last (l ++ [x]) = Some x.
Proof. induction l as [|y [|z l] IH]; simpl in *; auto. Qed.

Lemma last_two {A} (l : list A) x y : last (l ++ [x; y]) = Some y.
Proof. change (l ++ [x; y]) with (l ++ [x] ++ [y]). now rewrite app_assoc, last_snoc'. Qed.

(** While the loop runs, the message in flight holds the fragments
    received so far, joined in order. *)
Lemma streamLoop_inflight leoId chunks w m l :
  st_messages w = l ++ [m] -> id m = leoId -> text m = "" ->
  inflightText (snd (streamLoop leoId chunks "" w)) = Some (joinAll chunks).
Proof.
  intros Hw Hid Ht. rewrite streamLoop_closed. unfold inflightText.
  destruct chunks as [|c cs]; cbn [snd setMessages st_messages].
  - rewrite Hw, last_snoc'. simpl. now rewrite Ht.
  - rewrite Hw, setTextById_app. cbn [setTextById map]. rewrite last_snoc'.
    apply String.eqb_eq in Hid. now rewrite Hid.
Qed.

Lemma sameButText_trans m1 m2 m3 :
  sameButText m1 m2 -> sameButText m2 m3 -> sameButText m1 m3.
Proof. unfold sameButText. intuition congruence. Qed.

Lemma Forall2_sameButText_trans l1 l2 l3 :
  Forall2 sameButText l1 l2 -> Forall2 sameButText l2 l3 ->
  Forall2 sameButText l1 l3.
Proof.
  intros H. revert l3. induction H as [|a b l1 l2 Hab _ IH]; intros l3 H3;
    inversion H3; subst; constructor; eauto using sameButText_trans.
Qed.

Lemma streamed_length leoId chunks l : length (streamed leoId chunks l) = length l.
Proof. destruct chunks; [reflexivity|apply setTextById_length]. Qed.

Create HintDb msgs.
#[local] Hint Resolve sameButText_refl Forall2_sameButText_refl
  streamed_sameButText setTextById_sameButText : msgs.

(** *** A call that passes line 140 *)

Section AcceptedCall.

Variables (env : SendEnv) (r : Render) (ov : option string) (w : World).
Hypothesis Ha : accepted r ov.
Let t := textToSend r ov.

(** The call is the prologue followed by one of the two replies. *)
Lemma handleSend_accepted :
  handleSend env r ov w
  = match imageObtained env t with
    | Some url => imageReply env url (emit (GenerateImage t) (submitted env t w))
    | None => textPath env r t (emitAll (attempt env t) (submitted env t w))
    end.
Proof.
  destruct Ha as [Ht Hth]. unfold handleSend. fold (textToSend r ov). fold t.
  fold t in Ht. rewrite Ht, Hth. simpl.
  unfold imageObtained, attempt, failedAttempt.
  destruct (isImageReq t); [|reflexivity].
  destruct (generateLeoImage env t) as [[url|]|e]; try reflexivity.
  destruct (Js.truthy url); reflexivity.
Qed.

Lemma handleSend_messages :
  st_messages (handleSend env r ov w)
  = match imageObtained env t with
    | Some url => st_messages w ++ [userMsg env t; captionMsg env url]
    | None =>
        streamed (Js.toString (now env 2))
          (delivered (chatWithLeoStream env t (historyOf r)))
          (st_messages w ++ [userMsg env t; placeholder env])
    end.
Proof.
  rewrite handleSend_accepted. destruct (imageObtained env t) as [url|].
  - simpl. now rewrite <- app_assoc.
  - rewrite textPath_closed. simpl. rewrite emitAll_messages. simpl.
    now rewrite <- app_assoc.
Qed.

Lemma handleSend_effects :
  effects (handleSend env r ov w)
  = effects w ++
    match imageObtained env t with
    | Some _ => [GenerateImage t]
    | None => attempt env t ++ [ChatRequest t (historyOf r)]
    end.
Proof.
  rewrite handleSend_accepted. destruct (imageObtained env t) as [url|].
  - reflexivity.
  - rewrite textPath_closed. simpl. rewrite emitAll_effects. simpl.
    now rewrite <- app_assoc.
Qed.

Lemma handleSend_leoState :
  st_leoState (handleSend env r ov w)
  = match imageObtained env t with
    | Some _ => mkLeoState happy (isSpeaking (st_leoState w)) false (isLive (st_leoState w))
    | None => replyState (chatWithLeoStream env t (historyOf r))
                (withThinking true (st_leoState w))
    end.
Proof.
  rewrite handleSend_accepted. destruct (imageObtained env t) as [url|].
  - reflexivity.
  - rewrite textPath_closed. simpl. now rewrite emitAll_leoState.
Qed.

Lemma handleSend_length :
  length (st_messages (handleSend env r ov w)) = length (st_messages w) + 2.
Proof.
  rewrite handleSend_messages.
  destruct (imageObtained _ _); rewrite ?streamed_length, length_app; reflexivity.
Qed.

(** On the text path the call is the loop run from [loopStart], followed
    by the [catch] when the stream fails. *)
Lemma handleSend_via_loop chunks ending :
  imageObtained env t = None ->
  chatWithLeoStream env t (historyOf r) = ChatYields chunks ending ->
  handleSend env r ov w
  = let w1 := snd (streamLoop (Js.toString (now env 2)) chunks "" (loopStart env r t w)) in
    match ending with
    | StreamDone => w1
    | StreamFails => setLeoState concernedState w1
    end.
Proof.
  intros Hi Hc. rewrite handleSend_accepted, Hi.
  unfold textPath. fold (historyOf r). rewrite Hc. reflexivity.
Qed.

End AcceptedCall.

(** ** The properties of [handleSend] *)

(** C1. An accepted submission (text not blank after trimming, not
    thinking) adds exactly two messages at the end of the list, in this
    order: the user message with the submitted text, then one assistant
    message, which is the image caption or the streamed text message.
    Nothing else is added or removed, so submission order is kept. *)
Theorem handleSend_appends_user_then_assistant env r ov w :
  accepted r ov ->
  let t := textToSend r ov in
  let final := st_messages (handleSend env r ov w) in
  exists a,
    length final = length (st_messages w) + 2 /\
    Forall2 sameButText final (st_messages w ++ [userMsg env t; a]) /\
    last final = Some a /\
    role (userMsg env t) = user /\ text (userMsg env t) = t /\
    role a = leo /\
    ((exists url, imageObtained env t = Some url /\ a = captionMsg env url) \/
     (imageObtained env t = None /\
      a = mkMessage (Js.toString (now env 2)) leo
            (joinAll (delivered (chatWithLeoStream env t (historyOf r))))
            (now env 3) None None None)).
Proof.
  intros Ha t final. subst final. rewrite (handleSend_messages env r ov w Ha). fold t.
  destruct (imageObtained env t) as [url|].
  - exists (captionMsg env url). repeat split.
    + rewrite length_app. reflexivity.
    + apply Forall2_sameButText_refl.
    + apply last_two.
    + left. now exists url.
  - set (cs := delivered _).
    exists (withText (joinAll cs) (placeholder env)).
    assert (HF : Forall2 sameButText
                   (streamed (Js.toString (now env 2)) cs
                      (st_messages w ++ [userMsg env t; placeholder env]))
                   (st_messages w ++ [userMsg env t; withText (joinAll cs) (placeholder env)])).
    { eapply Forall2_sameButText_trans; [auto with msgs|].
      apply Forall2_app; [auto with msgs|].
      repeat constructor; auto with msgs. }
    repeat split.
    + apply Forall2_length in HF. rewrite HF, !length_app. reflexivity.
    + exact HF.
    + change (st_messages w ++ [userMsg env t; placeholder env])
        with (st_messages w ++ [userMsg env t] ++ [placeholder env]).
      rewrite app_assoc, streamed_snoc by reflexivity. apply last_snoc'.
    + right. split; reflexivity.
Qed.

Lemma handleSend_appends_user_then_assistant_witness :
  let w := initialWorld 0 in
  accepted (render w) (Some "hi") /\
  exists a,
    length (st_messages (handleSend ticking (render w) (Some "hi") w)) = 3 /\
    Forall2 sameButText (st_messages (handleSend ticking (render w) (Some "hi") w))
      (st_messages w ++ [userMsg ticking "hi"; a]) /\
    last (st_messages (handleSend ticking (render w) (Some "hi") w)) = Some a /\
    role (userMsg ticking "hi") = user /\ text (userMsg ticking "hi") = "hi" /\
    role a = leo /\
    ((exists url, imageObtained ticking "hi" = Some url /\ a = captionMsg ticking url) \/
     (imageObtained ticking "hi" = None /\
      a = mkMessage "1700000000002" leo "Hello!" 1700000000003 None None None)).
Proof.
  intros w. split; [split; reflexivity|].
  apply (handleSend_appends_user_then_assistant ticking (render w) (Some "hi") w).
  split; reflexivity.
Defined.

(** C5. A call whose text is blank or white space only, or that is made
    while a reply is in flight, changes nothing: the message list (and
    the rest of the state) is the one before the call. The text of a
    call is its argument, or the input field when the argument is
    missing or empty. *)
Theorem handleSend_rejects_blank_or_busy env r ov w :
  blank (textToSend r ov) \/ isThinking (leoState r) = true ->
  st_messages (handleSend env r ov w) = st_messages w /\
  handleSend env r ov w = w.
Proof.
  intros H. assert (E : handleSend env r ov w = w).
  { unfold handleSend. fold (textToSend r ov).
    destruct H as [H|H].
    - apply trim_empty_iff_blank in H. rewrite H. reflexivity.
    - rewrite H. now rewrite orb_true_r. }
  now rewrite E.
Qed.

Lemma handleSend_rejects_blank_or_busy_witness :
  let w := initialWorld 0 in
  blank (textToSend (render w) (Some "   ")) /\
  st_messages (handleSend ticking (render w) (Some "   ") w) = st_messages w /\
  handleSend ticking (render w) (Some "   ") w = w.
Proof.
  intros w.
  assert (Hb : blank (textToSend (render w) (Some "   ")))
    by (apply trim_empty_iff_blank; reflexivity).
  split; [exact Hb|].
  apply (handleSend_rejects_blank_or_busy ticking (render w) (Some "   ") w).
  left. exact Hb.
Defined.

Lemma loopStart_messages env r t w :
  st_messages (loopStart env r t w)
  = (st_messages w ++ [userMsg env t]) ++ [placeholder env].
Proof. unfold loopStart. simpl. now rewrite emitAll_messages. Qed.

(** C4. On the text path every fragment of the stream is appended to the
    text of the message in flight, in arrival order: after any prefix of
    the stream that text is the prefix joined left to right, one more
    fragment extends it at its end, and when the loop is over it is the
    whole reply. For the fragments "Hel", "lo!" it is "Hello!". *)
Theorem streamed_fragments_arrive_in_order env r ov w chunks ending :
  accepted r ov ->
  let t := textToSend r ov in
  let leoId := Js.toString (now env 2) in
  imageObtained env t = None ->
  chatWithLeoStream env t (historyOf r) = ChatYields chunks ending ->
  (forall cs1 cs2, chunks = cs1 ++ cs2 ->
     inflightText (snd (streamLoop leoId cs1 "" (loopStart env r t w)))
     = Some (joinAll cs1)) /\
  (forall cs1 c cs2, chunks = cs1 ++ c :: cs2 ->
     inflightText (snd (streamLoop leoId (cs1 ++ [c]) "" (loopStart env r t w)))
     = (fun s => s +:+ c) <$>
       inflightText (snd (streamLoop leoId cs1 "" (loopStart env r t w)))) /\
  inflightText (handleSend env r ov w) = Some (joinAll chunks) /\
  (chunks = ["Hel"; "lo!"] -> inflightText (handleSend env r ov w) = Some "Hello!").
Proof.
  intros Ha t leoId Hi Hc.
  assert (Hloop : forall cs,
            inflightText (snd (streamLoop leoId cs "" (loopStart env r t w)))
            = Some (joinAll cs)).
  { intros cs. eapply streamLoop_inflight; [apply loopStart_messages|reflexivity..]. }
  assert (Hfin : inflightText (handleSend env r ov w) = Some (joinAll chunks)).
  { rewrite (handleSend_via_loop env r ov w Ha chunks ending Hi Hc).
    fold t leoId. cbn zeta. rewrite <- (Hloop chunks). now destruct ending. }
  repeat split.
  - intros cs1 cs2 _. apply Hloop.
  - intros cs1 c cs2 _. rewrite !Hloop. simpl.
    now rewrite joinAll_app; simpl; rewrite append_empty_r.
  - exact Hfin.
  - intros ->. exact Hfin.
Qed.

Lemma streamed_fragments_arrive_in_order_witness :
  let w := initialWorld 0 in
  accepted (render w) (Some "hi") /\
  inflightText (handleSend ticking (render w) (Some "hi") w) = Some "Hello!".
Proof.
  intros w. split; [split; reflexivity|].
  refine (proj2 (proj2 (proj2
    (streamed_fragments_arrive_in_order ticking (render w) (Some "hi") w
       ["Hel"; "lo!"] StreamDone _ _ _))) _); [split| | |]; reflexivity.
Defined.

(** C7. When the stream fails after some fragments, the emotion becomes
    [concerned], the thinking flag is off, and the message list is the
    one the loop had produced when the failure came: the two appended
    messages are still there and the assistant message holds the
    fragments received, joined in order. *)
Theorem stream_failure_keeps_partial_text env r ov w chunks :
  accepted r ov ->
  let t := textToSend r ov in
  let leoId := Js.toString (now env 2) in
  imageObtained env t = None ->
  chatWithLeoStream env t (historyOf r) = ChatYields chunks StreamFails ->
  let w' := handleSend env r ov w in
  emotion (st_leoState w') = concerned /\
  isThinking (st_leoState w') = false /\
  st_messages w'
  = st_messages (snd (streamLoop leoId chunks "" (loopStart env r t w))) /\
  length (st_messages w') = length (st_messages w) + 2 /\
  last (st_messages w')
  = Some (mkMessage leoId leo (joinAll chunks) (now env 3) None None None).
Proof.
  intros Ha t leoId Hi Hc w'. subst w'.
  split; [|split; [|split; [|split]]].
  - rewrite (handleSend_leoState env r ov w Ha). fold t. now rewrite Hi, Hc.
  - rewrite (handleSend_leoState env r ov w Ha). fold t. now rewrite Hi, Hc.
  - now rewrite (handleSend_via_loop env r ov w Ha chunks StreamFails Hi Hc).
  - now apply handleSend_length.
  - rewrite (handleSend_messages env r ov w Ha). fold t. rewrite Hi, Hc.
    change (st_messages w ++ [userMsg env t; placeholder env])
      with (st_messages w ++ [userMsg env t] ++ [placeholder env]).
    rewrite app_assoc, streamed_snoc by reflexivity. apply last_snoc'.
Qed.

Lemma stream_failure_keeps_partial_text_witness :
  let w := initialWorld 0 in
  let w' := handleSend breaking (render w) (Some "hi") w in
  accepted (render w) (Some "hi") /\
  emotion (st_leoState w') = concerned /\
  isThinking (st_leoState w') = false /\
  last (st_messages w')
  = Some (mkMessage "1700000000002" leo "Hel" 1700000000003 None None None).
Proof.
  intros w w'. split; [split; reflexivity|].
  pose proof (stream_failure_keeps_partial_text breaking (render w) (Some "hi") w
                ["Hel"] (conj eq_refl eq_refl) eq_refl eq_refl) as H.
  cbv zeta in H. destruct H as (H1 & H2 & _ & _ & H5).
  exact (conj H1 (conj H2 H5)).
Defined.

Lemma Forall2_entryOf l : Forall2 entryOf l (map toContent l).
Proof.
  induction l as [|m l IH]; simpl; constructor; [split; reflexivity|exact IH].
Qed.

(** C10. The chat request of a call on the text path carries the
    submitted text as its prompt and, as its history, the last six
    messages (all of them when there are fewer) of the list the handler
    was created with, each as a role-tagged entry ([leo] as "model",
    [user] as "user"). When that list is the stored list, the history is
    made of messages that come before the two messages the call appends:
    neither the new user message nor the placeholder is in it. No other
    chat request is made. *)
Theorem chat_history_is_recent_window env r ov w :
  accepted r ov ->
  let t := textToSend r ov in
  let w' := handleSend env r ov w in
  imageObtained env t = None ->
  exists older recent,
    messages r = older ++ recent /\
    length recent = Nat.min 6 (length (messages r)) /\
    length (map toContent recent) <= 6 /\
    Forall2 entryOf recent (map toContent recent) /\
    chatRequests (effects w')
    = chatRequests (effects w) ++ [(t, map toContent recent)] /\
    (st_messages w = messages r ->
     exists a, Forall2 sameButText (st_messages w')
                 (older ++ recent ++ [userMsg env t; a])).
Proof.
  intros Ha t w' Hi. subst w'.
  exists (firstn (length (messages r) - 6) (messages r)),
         (Js.sliceLast 6 (messages r)).
  unfold Js.sliceLast.
  assert (Hlen : length (skipn (length (messages r) - 6) (messages r))
                 = Nat.min 6 (length (messages r))).
  { rewrite length_skipn. lia. }
  split; [now rewrite firstn_skipn|]. split; [exact Hlen|].
  split; [rewrite length_map, Hlen; lia|]. split.
  { apply Forall2_entryOf. }
  split.
  - rewrite (handleSend_effects env r ov w Ha). fold t. rewrite Hi.
    rewrite !chatRequests_app. simpl.
    assert (E : chatRequests (attempt env t) = []).
    { unfold attempt, failedAttempt.
      destruct (isImageReq t); [|reflexivity].
      now destruct (generateLeoImage env t) as [[?|]|?]. }
    now rewrite E.
  - intros Hst.
    destruct (imageObtained env t) eqn:Hi'; [discriminate|].
    exists (withText (joinAll (delivered (chatWithLeoStream env t (historyOf r))))
              (placeholder env)).
    rewrite (handleSend_messages env r ov w Ha). fold t. rewrite Hi'.
    rewrite app_assoc, firstn_skipn, <- Hst.
    eapply Forall2_sameButText_trans; [auto with msgs|].
    apply Forall2_app; [auto with msgs|].
    repeat constructor; auto with msgs.
Qed.

Lemma chat_history_is_recent_window_witness :
  let w := initialWorld 0 in
  accepted (render w) (Some "hi") /\
  exists older recent,
    messages (render w) = older ++ recent /\
    length recent = Nat.min 6 (length (messages (render w))) /\
    length (map toContent recent) <= 6 /\
    Forall2 entryOf recent (map toContent recent) /\
    chatRequests (effects (handleSend ticking (render w) (Some "hi") w))
    = chatRequests (effects w) ++ [("hi", map toContent recent)] /\
    (st_messages w = messages (render w) ->
     exists a, Forall2 sameButText
                 (st_messages (handleSend ticking (render w) (Some "hi") w))
                 (older ++ recent ++ [userMsg ticking "hi"; a])).
Proof.
  intros w. split; [split; reflexivity|].
  apply (chat_history_is_recent_window ticking (render w) (Some "hi") w
           (conj eq_refl eq_refl) eq_refl).
Defined.

Lemma imageObtained_intent env t url :
  imageObtained env t = Some url -> isImageReq t = true.
Proof. unfold imageObtained. now destruct (isImageReq t). Qed.

Lemma imageRequests_attempt env t :
  imageRequests (attempt env t) = if isImageReq t then [t] else [].
Proof.
  unfold attempt, failedAttempt. destruct (isImageReq t); [|reflexivity].
  now destruct (generateLeoImage env t) as [[?|]|?].
Qed.

Lemma chatRequests_attempt env t : chatRequests (attempt env t) = [].
Proof.
  unfold attempt, failedAttempt. destruct (isImageReq t); [|reflexivity].
  now destruct (generateLeoImage env t) as [[?|]|?].
Qed.

Lemma textPath_messages_emitAll env r t es w :
  st_messages (textPath env r t (emitAll es w)) = st_messages (textPath env r t w).
Proof. rewrite !textPath_closed. simpl. now rewrite emitAll_messages. Qed.

Lemma textPath_leoState_emitAll env r t es w :
  st_leoState (textPath env r t (emitAll es w)) = st_leoState (textPath env r t w).
Proof. rewrite !textPath_closed. simpl. now rewrite emitAll_leoState. Qed.

(** C6. The text of an accepted call is classified by the pattern: it has
    image intent exactly when one of generate, visualize, create, show me
    occurs in it, in any case. With image intent one image request is
    made with the text as prompt ("generate a sunset" does so); without,
    none is made and the call is the text path ("what's the weather").
    When the image request throws or returns nothing (or an empty URL)
    the call goes on as the text path: the same messages and flags as a
    call without image intent would give, and one chat request; only the
    console records a thrown error. *)
Theorem image_intent_routes_submission env r ov w :
  accepted r ov ->
  let t := textToSend r ov in
  let w' := handleSend env r ov w in
  (isImageReq t = true <->
   exists k, In k ["generate"; "visualize"; "create"; "show me"] /\
             occursIgnoringCase k t) /\
  imageRequests (effects w')
  = imageRequests (effects w) ++ (if isImageReq t then [t] else []) /\
  (isImageReq t = false -> w' = textPath env r t (submitted env t w)) /\
  (isImageReq t = true ->
   generateLeoImage env t = ImageReturns None \/
   generateLeoImage env t = ImageReturns (Some "") \/
   (exists e, generateLeoImage env t = ImageThrows e) ->
   w' = textPath env r t (emitAll (failedAttempt env t) (submitted env t w)) /\
   st_messages w' = st_messages (textPath env r t (submitted env t w)) /\
   st_leoState w' = st_leoState (textPath env r t (submitted env t w)) /\
   chatRequests (effects w') = chatRequests (effects w) ++ [(t, historyOf r)]) /\
  (t = "generate a sunset" ->
   imageRequests (effects w') = imageRequests (effects w) ++ ["generate a sunset"]) /\
  (t = "what's the weather" ->
   imageRequests (effects w') = imageRequests (effects w) /\
   w' = textPath env r t (submitted env t w)).
Proof.
  intros Ha t w'. subst w'.
  assert (Himg : imageRequests (effects (handleSend env r ov w))
                 = imageRequests (effects w) ++ (if isImageReq t then [t] else [])).
  { rewrite (handleSend_effects env r ov w Ha). fold t.
    rewrite imageRequests_app. f_equal.
    destruct (imageObtained env t) as [url|] eqn:Hi.
    - now rewrite (imageObtained_intent env t url Hi).
    - rewrite imageRequests_app, imageRequests_attempt. simpl.
      now rewrite app_nil_r. }
  assert (Htext : isImageReq t = false ->
                  handleSend env r ov w = textPath env r t (submitted env t w)).
  { intros Hno. rewrite (handleSend_accepted env r ov w Ha). fold t.
    unfold imageObtained, attempt. now rewrite Hno. }
  split; [apply test_spec|]. split; [exact Himg|]. split; [exact Htext|].
  split; [|split].
  - intros Hyes Hfail.
    assert (Hi : imageObtained env t = None).
    { unfold imageObtained. rewrite Hyes.
      destruct Hfail as [-> | [-> | [e ->]]]; reflexivity. }
    assert (E : handleSend env r ov w
                = textPath env r t (emitAll (failedAttempt env t) (submitted env t w))).
    { rewrite (handleSend_accepted env r ov w Ha). fold t. rewrite Hi.
      unfold attempt. now rewrite Hyes. }
    split; [exact E|]. rewrite E.
    split; [apply textPath_messages_emitAll|].
    split; [apply textPath_leoState_emitAll|].
    rewrite <- E, (handleSend_effects env r ov w Ha). fold t. rewrite Hi.
    rewrite !chatRequests_app, chatRequests_attempt. reflexivity.
  - intros Ht. rewrite Himg, Ht. reflexivity.
  - intros Ht.
    assert (Hno : isImageReq t = false) by (rewrite Ht; reflexivity).
    split; [|now apply Htext].
    rewrite Himg, Hno. apply app_nil_r.
Qed.

Lemma image_intent_routes_submission_witness :
  let w := initialWorld 0 in
  let w' := handleSend breaking (render w) (Some "generate a sunset") w in
  accepted (render w) (Some "generate a sunset") /\
  imageRequests (effects w') = ["generate a sunset"] /\
  st_messages w'
  = st_messages (textPath breaking (render w) "generate a sunset"
                   (submitted breaking "generate a sunset" w)).
Proof.
  intros w w'. split; [split; reflexivity|].
  pose proof (image_intent_routes_submission breaking (render w)
                (Some "generate a sunset") w (conj eq_refl eq_refl)) as H.
  cbv zeta in H. destruct H as (_ & _ & _ & Hfall & Hgen & _).
  split; [exact (Hgen eq_refl)|].
  destruct (Hfall eq_refl (or_intror (or_intror (ex_intro _ "quota" eq_refl))))
    as (_ & Hm & _).
  exact Hm.
Defined.

(** ** What the streaming update touches *)

Lemma setTextById_lookup_other leoId t l i m :
  l !! i = Some m -> id m <> leoId -> setTextById leoId t l !! i = Some m.
Proof.
  revert i. induction l as [|x l IH]; intros [|i] H Hne; simpl in *; try discriminate.
  - injection H as ->. apply String.eqb_neq in Hne. now rewrite Hne.
  - now apply IH.
Qed.

Lemma streamed_lookup_other leoId chunks l i m :
  l !! i = Some m -> id m <> leoId -> streamed leoId chunks l !! i = Some m.
Proof.
  destruct chunks; [tauto|]. apply setTextById_lookup_other.
Qed.

(** Whatever the call, a message of the list is still at its place, and
    it is unchanged unless its id is the id the call gives its
    placeholder. *)
Lemma handleSend_keeps_other_ids env r ov w i m :
  st_messages w !! i = Some m ->
  id m <> Js.toString (now env 2) ->
  st_messages (handleSend env r ov w) !! i = Some m.
Proof.
  intros Hm Hne.
  destruct (Js.truthy (Js.trim (textToSend r ov))) eqn:Ht;
    [destruct (isThinking (leoState r)) eqn:Hth|].
  - unfold handleSend. fold (textToSend r ov). now rewrite Ht, Hth.
  - rewrite (handleSend_messages env r ov w (conj Ht Hth)).
    destruct (imageObtained _ _).
    + now apply lookup_app_l_Some.
    + apply streamed_lookup_other; [|exact Hne]. now apply lookup_app_l_Some.
  - unfold handleSend. fold (textToSend r ov). now rewrite Ht.
Qed.

Lemma handleSend_keeps_fields env r ov w :
  exists added,
    Forall2 sameButText (st_messages (handleSend env r ov w)) (st_messages w ++ added).
Proof.
  destruct (Js.truthy (Js.trim (textToSend r ov))) eqn:Ht;
    [destruct (isThinking (leoState r)) eqn:Hth|].
  - exists []. unfold handleSend. fold (textToSend r ov). rewrite Ht, Hth.
    rewrite app_nil_r. auto with msgs.
  - rewrite (handleSend_messages env r ov w (conj Ht Hth)).
    destruct (imageObtained _ _); eexists; auto with msgs.
  - exists []. unfold handleSend. fold (textToSend r ov). rewrite Ht.
    rewrite app_nil_r. auto with msgs.
Qed.

(** When the clock gives lines 143 and 167 the same reading and at least
    one fragment arrives, the message at the position of the new user
    message ends with the text of the reply. *)
Lemma same_tick_overwrites_user_text env r ov w c cs ending :
  accepted r ov ->
  let t := textToSend r ov in
  imageObtained env t = None ->
  now env 0 = now env 2 ->
  chatWithLeoStream env t (historyOf r) = ChatYields (c :: cs) ending ->
  st_messages (handleSend env r ov w) !! length (st_messages w)
  = Some (withText (joinAll (c :: cs)) (userMsg env t)).
Proof.
  intros Ha t Hi Hnow Hc. rewrite (handleSend_messages env r ov w Ha). fold t.
  rewrite Hi, Hc. cbn [delivered streamed]. rewrite setTextById_app.
  cbn [setTextById map userMsg id]. rewrite Hnow, String.eqb_refl.
  apply list_lookup_middle. now rewrite setTextById_length.
Qed.

(** C9, at a clock that does not advance between lines 143 and 167: the
    user message and the placeholder get the same id, and the streaming
    update, which selects by id, replaces the text of both. *)
Theorem streaming_overwrites_user_message_on_same_tick :
  let w := initialWorld 0 in
  st_messages (handleSend sameTick (render w) (Some "hi") w)
  = [ mkMessage "welcome" leo welcomeText 0 None None None;
      mkMessage "1700000000000" user "Hello!" 1700000000000 None None None;
      mkMessage "1700000000000" leo "Hello!" 1700000000000 None None None ].
Proof. reflexivity. Qed.

Example ticking_clock_keeps_user_text :
  let w := initialWorld 0 in
  st_messages (handleSend ticking (render w) (Some "hi") w)
  = [ mkMessage "welcome" leo welcomeText 0 None None None;
      mkMessage "1700000000000" user "hi" 1700000000001 None None None;
      mkMessage "1700000000002" leo "Hello!" 1700000000003 None None None ].
Proof. reflexivity. Qed.

(** ** toggleLive *)

(** C8. When the microphone request is refused, [toggleLive] catches the
    error and logs it: its promise resolves, the log gains the request
    and the "Mic Access Failed:" line, no connection is attempted, and an
    idle controller stays idle ([isLive] false, no session); the flags
    and the messages are untouched. *)
Theorem mic_denial_is_caught_and_logged env r w err :
  isLive (leoState r) = false ->
  getGeminiClient env = Succeeds ->
  getUserMedia env = MicDenied err ->
  idle w ->
  let w' := fst (toggleLive env r w) in
  snd (toggleLive env r w) = Resolves /\
  effects w' = effects w ++ [GetUserMedia; ConsoleError ["Mic Access Failed:"; err]] /\
  isLive (st_leoState w') = false /\
  idle w' /\
  st_leoState w' = st_leoState w /\
  st_messages w' = st_messages w.
Proof.
  intros Hr Hc Hm Hidle w'. subst w'. unfold toggleLive. rewrite Hr, Hc, Hm.
  cbn [fst snd]. destruct Hidle as [Hl Hs].
  repeat split; try assumption. simpl. now rewrite <- app_assoc.
Qed.

Lemma mic_denial_is_caught_and_logged_witness :
  let w := initialWorld 0 in
  idle w /\
  snd (toggleLive micRefused (render w) w) = Resolves /\
  effects (fst (toggleLive micRefused (render w) w))
  = [GetUserMedia; ConsoleError ["Mic Access Failed:"; "NotAllowedError"]] /\
  isLive (st_leoState (fst (toggleLive micRefused (render w) w))) = false.
Proof.
  intros w.
  pose proof (mic_denial_is_caught_and_logged micRefused (render w) w
                "NotAllowedError" eq_refl eq_refl eq_refl (conj eq_refl eq_refl)) as H.
  cbv zeta in H. destruct H as (H1 & H2 & H3 & _).
  exact (conj (conj eq_refl eq_refl) (conj H1 (conj H2 H3))).
Defined.

(** An error of [getGeminiClient] is raised before the [try] and is not
    caught. *)
Example client_error_escapes r w :
  isLive (leoState r) = false ->
  snd (toggleLive {| getGeminiClient := Raises "no key";
                     getUserMedia := MicGranted; connect := Succeeds |} r w)
  = Rejects "no key".
Proof. intros H. unfold toggleLive. now rewrite H. Qed.

(** ** The playback schedule *)

Lemma scheduled_app es1 es2 : scheduled (es1 ++ es2) = scheduled es1 ++ scheduled es2.
Proof.
  induction es1 as [|e es1 IH]; simpl; [reflexivity|].
  destruct e; simpl; now rewrite IH.
Qed.

Lemma started_app es1 es2 : started (es1 ++ es2) = started es1 ++ started es2.
Proof.
  induction es1 as [|e es1 IH]; simpl; [reflexivity|].
  destruct e; simpl; now rewrite IH.
Qed.

Lemma stopped_app es1 es2 : stopped (es1 ++ es2) = stopped es1 ++ stopped es2.
Proof.
  induction es1 as [|e es1 IH]; simpl; [reflexivity|].
  destruct e; simpl; now rewrite IH.
Qed.

Lemma scheduled_stops l : scheduled (map SourceStop l) = [].
Proof. induction l; simpl; auto. Qed.

Lemma started_stops l : started (map SourceStop l) = [].
Proof. induction l; simpl; auto. Qed.

Lemma stopped_stops l : stopped (map SourceStop l) = l.
Proof. induction l; simpl; congruence. Qed.

(** Stopping the sources one by one only adds to the effects. *)
Lemma stop_all_closed l w :
  fold_left (fun w source => emit (SourceStop source) w) l w
  = emitAll (map SourceStop l) w.
Proof.
  revert w. induction l as [|s l IH]; intros w; [reflexivity|].
  simpl. rewrite IH. reflexivity.
Qed.

(** Membership in a set after [add] and [delete]. *)
Lemma elem_of_setAdd (x y : SourceNode) s : x ∈ Js.setAdd y s <-> x = y \/ x ∈ s.
Proof.
  unfold Js.setAdd. destruct (decide (y ∈ s)) as [Hy|Hy].
  - split; [now right|]. now intros [->|H].
  - rewrite elem_of_app, list_elem_of_singleton. tauto.
Qed.

Lemma elem_of_setDelete (x y : SourceNode) s :
  x ∈ Js.setDelete y s <-> x ∈ s /\ x <> y.
Proof. unfold Js.setDelete. rewrite list_elem_of_filter. tauto. Qed.

Lemma setAdd_not_nil (y : SourceNode) s : Js.setAdd y s <> [].
Proof.
  intros H. assert (Hy : y ∈ Js.setAdd y s) by (apply elem_of_setAdd; now left).
  rewrite H in Hy. now apply not_elem_of_nil in Hy.
Qed.

(** The interruption branch of [onmessage], field by field. *)
Lemma interrupt_effects msg w :
  interrupted msg = true ->
  effects (liveStep w (Incoming msg))
  = effects w ++ map SourceStop (activeSources w).
Proof.
  intros H. simpl. unfold onmessage. rewrite H. cbn [fst].
  rewrite stop_all_closed. simpl. apply emitAll_effects.
Qed.

Lemma emitAll_nextNode es w : nextNode (emitAll es w) = nextNode w.
Proof.
  revert w. induction es as [|e es IH]; intros w; [reflexivity|].
  unfold emitAll in *. simpl. now rewrite IH.
Qed.

Lemma interrupt_state msg w :
  interrupted msg = true ->
  let w' := liveStep w (Incoming msg) in
  activeSources w' = [] /\ nextStartTime w' = 0%N /\ nextNode w' = nextNode w.
Proof.
  intros H w'. subst w'. simpl. unfold onmessage. rewrite H. cbn [fst].
  rewrite stop_all_closed. simpl. now rewrite emitAll_nextNode.
Qed.

Lemma quiet_message msg w :
  interrupted msg = false -> liveStep w (Incoming msg) = w.
Proof.
  intros H. simpl. unfold onmessage. rewrite H.
  destruct (audioData msg) as [d|]; [|reflexivity].
  now destruct (Js.truthy d && outputAudioContext w).
Qed.

(** Case analysis on a callback. A message is either an interruption or
    changes nothing. *)
Ltac callback_cases w ev :=
  let msg := fresh "msg" in
  let Hmsg := fresh "Hmsg" in
  destruct ev as [|msg| | | |];
  [ | destruct (interrupted msg) eqn:Hmsg;
      [ | rewrite (quiet_message msg w Hmsg) ]
    | | | | ].

(** What one callback adds to the schedule and does to the counter. *)
Lemma liveStep_schedule w ev :
  isInterruption ev = false ->
  exists new,
    scheduled (effects (liveStep w ev)) = scheduled (effects w) ++ new /\
    chained (nextStartTime w) new /\
    nextStartTime (liveStep w ev) = lastEnd (nextStartTime w) new.
Proof.
  intros Hq. callback_cases w ev.
  - exists []. simpl. rewrite scheduled_app, app_nil_r. simpl. now rewrite app_nil_r.
  - simpl in Hq. congruence.
  - exists []. rewrite app_nil_r. now simpl.
  - exists [(N.max (nextStartTime w) currentTime,
             (N.max (nextStartTime w) currentTime + duration buffer)%N)].
    simpl. rewrite scheduled_app. simpl. repeat split; lia.
  - exists []. rewrite app_nil_r. simpl. unfold onended. simpl.
    now destruct (Nat.eqb _ 0).
  - exists []. simpl. rewrite scheduled_app, app_nil_r. simpl. now rewrite app_nil_r.
  - exists []. rewrite app_nil_r. now simpl.
Qed.

Lemma lastEnd_app c l1 l2 : lastEnd c (l1 ++ l2) = lastEnd (lastEnd c l1) l2.
Proof. unfold lastEnd. apply fold_left_app. Qed.

Lemma chained_app c l1 l2 :
  chained c l1 -> chained (lastEnd c l1) l2 -> chained c (l1 ++ l2).
Proof.
  revert c. induction l1 as [|[s e] l1 IH]; intros c H1 H2; simpl in *; [exact H2|].
  destruct H1 as (Hc & Hs & H1). repeat split; try assumption.
  apply IH; assumption.
Qed.

Lemma chained_lastEnd c l : chained c l -> (c <= lastEnd c l)%N.
Proof.
  revert c. induction l as [|[s e] l IH]; intros c H; simpl in *; [lia|].
  destruct H as (Hc & Hs & H). specialize (IH e H). unfold lastEnd in *. simpl. lia.
Qed.

Lemma chained_lower c l j b :
  chained c l -> l !! j = Some b -> (c <= fst b)%N.
Proof.
  revert c j. induction l as [|[s e] l IH]; intros c [|j] H Hb; simpl in *;
    try discriminate; destruct H as (Hc & Hs & H).
  - injection Hb as <-. exact Hc.
  - specialize (IH e j H Hb). lia.
Qed.

(** Chained intervals do not overlap: an earlier one ends before a later
    one starts. *)
Lemma chained_disjoint c l i j a b :
  chained c l -> i < j -> l !! i = Some a -> l !! j = Some b ->
  (snd a <= fst b)%N.
Proof.
  revert c i j. induction l as [|[s e] l IH]; intros c i j H Hij Ha Hb;
    [destruct i; discriminate|].
  simpl in H. destruct H as (Hc & Hs & H).
  destruct j as [|j]; [lia|]. destruct i as [|i]; simpl in Ha, Hb.
  - injection Ha as <-. simpl. eapply chained_lower; eassumption.
  - eapply (IH e i j); try eassumption. lia.
Qed.

Lemma liveRun_app evs1 evs2 w : liveRun (evs1 ++ evs2) w = liveRun evs2 (liveRun evs1 w).
Proof. unfold liveRun. apply fold_left_app. Qed.

Lemma liveRun_schedule evs w :
  uninterrupted evs ->
  exists new,
    scheduled (effects (liveRun evs w)) = scheduled (effects w) ++ new /\
    chained (nextStartTime w) new /\
    nextStartTime (liveRun evs w) = lastEnd (nextStartTime w) new.
Proof.
  revert w. induction evs as [|ev evs IH]; intros w Hq.
  - exists []. simpl. now rewrite app_nil_r.
  - destruct (liveStep_schedule w ev) as (n1 & E1 & C1 & L1);
      [apply Hq; now left|].
    destruct (IH (liveStep w ev)) as (n2 & E2 & C2 & L2);
      [intros ev' Hev'; apply Hq; now right|].
    exists (n1 ++ n2). change (liveRun (ev :: evs) w) with (liveRun evs (liveStep w ev)).
    rewrite E2, E1, L2, L1, <- app_assoc, lastEnd_app. repeat split.
    apply chained_app; [exact C1|]. now rewrite <- L1.
Qed.

(** C2 as stated fails across an interruption. A frame of five ticks is
    scheduled at 10 and ends at 15; an interruption resets the counter
    from 15 to 0; the next frame, decoded at 12, starts at 12. That is
    not the later of the clock (12) and the previously scheduled end
    (15), the two requested intervals overlap, and the counter has gone
    down within the session. *)
Lemma interruption_restarts_the_schedule :
  let w0 := initialWorld 0 in
  scheduled (effects (liveRun interruptedFrames w0)) = [(10, 15); (12, 17)]%N /\
  (12 <> N.max 12 15)%N /\
  (12 < 15)%N /\
  nextStartTime (liveRun (firstn 1 interruptedFrames) w0) = 15%N /\
  nextStartTime (liveRun (firstn 2 interruptedFrames) w0) = 0%N /\
  ~ (forall evs i j a b,
       i < j ->
       scheduled (effects (liveRun evs w0)) !! i = Some a ->
       scheduled (effects (liveRun evs w0)) !! j = Some b ->
       (snd a <= fst b)%N).
Proof.
  intros w0.
  assert (E : scheduled (effects (liveRun interruptedFrames w0)) = [(10, 15); (12, 17)]%N)
    by (vm_compute; reflexivity).
  split; [exact E|]. split; [discriminate|]. split; [reflexivity|].
  split; [vm_compute; reflexivity|]. split; [vm_compute; reflexivity|].
  intros H. specialize (H interruptedFrames 0 1 (10, 15)%N (12, 17)%N).
  rewrite E in H. specialize (H ltac:(lia) eq_refl eq_refl). simpl in H. lia.
Qed.

(** C2, amended. Every frame starts at the later of the output clock and
    the next-start-time counter, and leaves in the counter the end of its
    interval. An interruption sets the counter to zero. Over callbacks
    with no interruption among them the counter does not go down, it
    holds the end of the last interval scheduled, and the intervals
    scheduled follow one another: an earlier one ends no later than a
    later one starts. *)
Theorem playback_schedule_chained_between_interruptions evs w :
  uninterrupted evs ->
  let w' := liveRun evs w in
  (forall buffer currentTime v,
     let start := N.max (nextStartTime v) currentTime in
     scheduled (effects (schedule buffer currentTime v))
     = scheduled (effects v) ++ [(start, (start + duration buffer)%N)] /\
     nextStartTime (schedule buffer currentTime v) = (start + duration buffer)%N) /\
  (forall msg v, interrupted msg = true ->
     nextStartTime (liveStep v (Incoming msg)) = 0%N) /\
  exists new,
    scheduled (effects w') = scheduled (effects w) ++ new /\
    (nextStartTime w <= nextStartTime w')%N /\
    nextStartTime w' = lastEnd (nextStartTime w) new /\
    (forall j b, new !! j = Some b -> (nextStartTime w <= fst b)%N) /\
    (forall i j a b, i < j -> new !! i = Some a -> new !! j = Some b ->
       (snd a <= fst b)%N).
Proof.
  intros Hq w'. subst w'. split; [|split].
  - intros buffer currentTime v start. simpl. rewrite scheduled_app. now simpl.
  - intros msg v Hi. now destruct (interrupt_state msg v Hi) as (_ & H0 & _).
  - destruct (liveRun_schedule evs w Hq) as (new & E & C & L).
    exists new. split; [exact E|]. split; [|split; [exact L|split]].
    + rewrite L. now apply chained_lastEnd.
    + intros j b. now apply chained_lower.
    + intros i j a b. now apply chained_disjoint with (c := nextStartTime w).
Qed.

Lemma playback_schedule_chained_between_interruptions_witness :
  let w0 := initialWorld 0 in
  uninterrupted twoFrames /\
  exists new,
    scheduled (effects (liveRun twoFrames w0)) = scheduled (effects w0) ++ new /\
    (nextStartTime w0 <= nextStartTime (liveRun twoFrames w0))%N /\
    nextStartTime (liveRun twoFrames w0) = lastEnd (nextStartTime w0) new /\
    (forall j b, new !! j = Some b -> (nextStartTime w0 <= fst b)%N) /\
    (forall i j a b, i < j -> new !! i = Some a -> new !! j = Some b ->
       (snd a <= fst b)%N).
Proof.
  intros w0.
  assert (Hq : uninterrupted twoFrames).
  { intros ev [<-|[<-|[]]]; reflexivity. }
  split; [exact Hq|].
  exact (proj2 (proj2 (playback_schedule_chained_between_interruptions twoFrames w0 Hq))).
Defined.

Example twoFrames_schedule :
  scheduled (effects (liveRun twoFrames (initialWorld 0))) = [(10, 15); (15, 20)]%N.
Proof. vm_compute. reflexivity. Qed.

(** ** Interruption *)

Lemma numbered_initial t0 : numbered (initialWorld t0).
Proof. intros s []. Qed.

Lemma liveStep_numbered w ev : numbered w -> numbered (liveStep w ev).
Proof.
  intros Hn s. callback_cases w ev.
  - simpl. rewrite started_app, app_nil_r. apply Hn.
  - rewrite (interrupt_effects _ w Hmsg), started_app, started_stops, app_nil_r.
    destruct (interrupt_state _ w Hmsg) as (_ & _ & ->). apply Hn.
  - apply Hn.
  - simpl. rewrite started_app. simpl. rewrite in_app_iff. simpl.
    intros [H|[<-|[]]]; [apply Hn in H|]; lia.
  - simpl. unfold onended. simpl. destruct (Nat.eqb _ 0); apply Hn.
  - simpl. rewrite started_app, app_nil_r. apply Hn.
  - simpl. apply Hn.
Qed.

Lemma liveRun_numbered evs w : numbered w -> numbered (liveRun evs w).
Proof.
  revert w. induction evs as [|ev evs IH]; intros w Hn; [exact Hn|].
  apply (IH (liveStep w ev)). now apply liveStep_numbered.
Qed.

Lemma liveStep_nextNode w ev : (nextNode w <= nextNode (liveStep w ev))%positive.
Proof.
  callback_cases w ev; try (simpl; lia).
  - destruct (interrupt_state _ w Hmsg) as (_ & _ & ->). lia.
  - simpl. unfold onended. simpl. destruct (Nat.eqb _ 0); simpl; lia.
Qed.

(** A callback adds at most the node it creates to the active set. *)
Lemma liveStep_active w ev s :
  s ∈ activeSources (liveStep w ev) -> s ∈ activeSources w \/ s = nextNode w.
Proof.
  callback_cases w ev; try (simpl; now left).
  - destruct (interrupt_state _ w Hmsg) as (-> & _). intros H.
    now apply not_elem_of_nil in H.
  - simpl. intros H. apply elem_of_setAdd in H as [H|H]; [now right|now left].
  - simpl. unfold onended. simpl.
    destruct (Nat.eqb _ 0); simpl; intros H; apply elem_of_setDelete in H as [H _];
      now left.
Qed.

Lemma liveRun_active evs w s :
  s ∈ activeSources (liveRun evs w) ->
  s ∈ activeSources w \/ (nextNode w <= s)%positive.
Proof.
  revert w. induction evs as [|ev evs IH]; intros w H; [now left|].
  destruct (IH (liveStep w ev) H) as [H1|H1].
  - destruct (liveStep_active w ev s H1) as [H2| ->]; [now left|right; lia].
  - right. pose proof (liveStep_nextNode w ev). lia.
Qed.

(** The two handlers create no source node, so the numbering holds in
    every world the component reaches. *)
Lemma started_attempt env t : started (attempt env t) = [].
Proof.
  unfold attempt, failedAttempt. destruct (isImageReq t); [|reflexivity].
  now destruct (generateLeoImage env t) as [[?|]|?].
Qed.

Lemma handleSend_numbered env r ov w : numbered w -> numbered (handleSend env r ov w).
Proof.
  intros Hn.
  destruct (Js.truthy (Js.trim (textToSend r ov))) eqn:Ht;
    [destruct (isThinking (leoState r)) eqn:Hth|].
  - unfold handleSend. fold (textToSend r ov). now rewrite Ht, Hth.
  - intros s. rewrite (handleSend_effects env r ov w (conj Ht Hth)).
    rewrite (handleSend_accepted env r ov w (conj Ht Hth)).
    destruct (imageObtained _ _).
    + rewrite started_app, app_nil_r. apply Hn.
    + rewrite !started_app, started_attempt, !app_nil_r, textPath_closed.
      simpl. rewrite emitAll_nextNode. apply Hn.
  - unfold handleSend. fold (textToSend r ov). now rewrite Ht.
Qed.

Lemma toggleLive_numbered env r w : numbered w -> numbered (fst (toggleLive env r w)).
Proof.
  intros Hn s. unfold toggleLive.
  destruct (isLive (leoState r)); [|destruct (getGeminiClient env);
    [destruct (getUserMedia env); [destruct (connect env)|]|]];
    simpl; rewrite ?started_app; simpl; rewrite ?app_nil_r; apply Hn.
Qed.

(** A counter at zero stays there until a frame is scheduled. *)
Lemma liveRun_counter_rests evs w :
  (forall ev, In ev evs -> isDecoded ev = false) ->
  nextStartTime w = 0%N ->
  nextStartTime (liveRun evs w) = 0%N /\
  scheduled (effects (liveRun evs w)) = scheduled (effects w).
Proof.
  revert w. induction evs as [|ev evs IH]; intros w Hq H0; [now split|].
  assert (Hev : isDecoded ev = false) by (apply Hq; now left).
  assert (Hstep : nextStartTime (liveStep w ev) = 0%N /\
                  scheduled (effects (liveStep w ev)) = scheduled (effects w)).
  { destruct ev as [|msg|buffer currentTime|source|e|]; try discriminate.
    - simpl. rewrite scheduled_app, app_nil_r. now split.
    - destruct (interrupted msg) eqn:Hi.
      + rewrite (interrupt_effects msg w Hi), scheduled_app, scheduled_stops, app_nil_r.
        now destruct (interrupt_state msg w Hi) as (_ & -> & _).
      + now rewrite (quiet_message msg w Hi).
    - simpl. unfold onended. simpl. now destruct (Nat.eqb _ 0).
    - simpl. rewrite scheduled_app, app_nil_r. now split.
    - now simpl. }
  destruct Hstep as [H1 H2].
  destruct (IH (liveStep w ev)) as [H3 H4]; [intros ev' Hev'; apply Hq; now right|exact H1|].
  change (liveRun (ev :: evs) w) with (liveRun evs (liveStep w ev)).
  now rewrite H3, H4, H2.
Qed.


(** X19. What the interruption does reach. It is handled in one
    callback, which runs to its end before any other: when it is over,
    [stop] has been called on every source that was active, in the
    order in which they were added, the active set is empty, the counter
    is zero, and the callback has scheduled nothing. No source started
    before it is active again at any later time, and the first frame
    scheduled after it starts at its own clock reading, whatever had
    been scheduled before. The session may start in any world whose
    source nodes are numbered in creation order, as in the initial
    one. *)
Theorem interruption_clears_playback w0 evs1 msg evs2 :
  numbered w0 ->
  interrupted msg = true ->
  let w1 := liveRun evs1 w0 in
  let w2 := liveStep w1 (Incoming msg) in
  let w3 := liveRun evs2 w2 in
  activeSources w2 = [] /\
  nextStartTime w2 = 0%N /\
  effects w2 = effects w1 ++ map SourceStop (activeSources w1) /\
  (forall s, s ∈ activeSources w1 -> In s (stopped (effects w2))) /\
  scheduled (effects w2) = scheduled (effects w1) /\
  (forall s, In s (started (effects w1)) -> s ∉ activeSources w3) /\
  (forall quiet buffer currentTime,
     evs2 = quiet ++ [Decoded buffer currentTime] ->
     (forall ev, In ev quiet -> isDecoded ev = false) ->
     scheduled (effects w3)
     = scheduled (effects w1) ++ [(currentTime, (currentTime + duration buffer)%N)]).
Proof.
  intros Hw0 Hi w1 w2 w3.
  destruct (interrupt_state msg w1 Hi) as (Ha & H0 & Hn). fold w2 in Ha, H0, Hn.
  pose proof (interrupt_effects msg w1 Hi) as He. fold w2 in He.
  assert (Hs : scheduled (effects w2) = scheduled (effects w1)).
  { now rewrite He, scheduled_app, scheduled_stops, app_nil_r. }
  split; [exact Ha|]. split; [exact H0|]. split; [exact He|].
  split; [|split; [exact Hs|split]].
  - intros s Hs1. rewrite He, stopped_app, stopped_stops, in_app_iff. right.
    now apply list_elem_of_In.
  - intros s Hstarted Hact.
    assert (Hlt : (s < nextNode w1)%positive).
    { apply (liveRun_numbered evs1 w0 Hw0). exact Hstarted. }
    apply liveRun_active in Hact. rewrite Ha, Hn in Hact.
    destruct Hact as [Hact|Hact]; [now apply not_elem_of_nil in Hact|lia].
  - intros quiet buffer currentTime -> Hquiet. subst w3.
    rewrite liveRun_app.
    destruct (liveRun_counter_rests quiet w2 Hquiet H0) as [Hz Hsame].
    simpl. rewrite scheduled_app, Hsame, Hs, Hz. simpl.
    now rewrite N.max_0_l.
Qed.

Lemma interruption_clears_playback_witness :
  let w1 := liveRun twoFrames (initialWorld 0) in
  let w2 := liveStep w1 (Incoming interruption) in
  let w3 := liveRun [Ended 1%positive; Decoded {| duration := 4 |} 16] w2 in
  numbered (initialWorld 0) /\
  interrupted interruption = true /\
  activeSources w1 = [1%positive; 2%positive] /\
  activeSources w2 = [] /\
  nextStartTime w2 = 0%N /\
  effects w2 = effects w1 ++ [SourceStop 1%positive; SourceStop 2%positive] /\
  (forall s, In s (started (effects w1)) -> s ∉ activeSources w3) /\
  scheduled (effects w3) = [(10, 15); (15, 20); (16, 20)]%N.
Proof.
  intros w1 w2 w3.
  assert (Hn : numbered (initialWorld 0)) by (intros s []).
  pose proof (interruption_clears_playback (initialWorld 0) twoFrames interruption
                [Ended 1%positive; Decoded {| duration := 4 |} 16] Hn eq_refl) as H.
  cbv zeta in H. destruct H as (H1 & H2 & H3 & _ & _ & H6 & H7).
  exact (conj Hn (conj eq_refl (conj eq_refl (conj H1 (conj H2 (conj H3 (conj H6
           (H7 [Ended 1%positive] {| duration := 4 |} 16%N eq_refl
               ltac:(intros ev [<-|[]]; reflexivity))))))))).
Defined.

(** * More of the component *)

(** ** What a call of [handleSend] does to the rest of the state *)

Lemma emitAll_closed es w :
  emitAll es w
  = mkWorld (st_messages w) (st_input w) (st_leoState w) (inputAudioContext w)
      (outputAudioContext w) (liveSession w) (nextStartTime w) (activeSources w)
      (nextNode w) (effects w ++ es).
Proof.
  revert w. induction es as [|e es IH]; intros w.
  - destruct w. simpl. now rewrite app_nil_r.
  - change (emitAll (e :: es) w) with (emitAll es (emit e w)).
    rewrite IH. simpl. now rewrite <- app_assoc.
Qed.

(** A call either returns at line 140 or is accepted. *)
Lemma handleSend_cases env r ov w :
  handleSend env r ov w = w \/ accepted r ov.
Proof.
  unfold accepted, handleSend. fold (textToSend r ov).
  destruct (Js.truthy (Js.trim (textToSend r ov))); [|now left].
  destruct (isThinking (leoState r)); [now left|now right].
Qed.

(** The world an accepted call leaves, field by field. *)
Lemma handleSend_world env r ov w :
  accepted r ov ->
  let t := textToSend r ov in
  handleSend env r ov w
  = {| st_messages :=
         match imageObtained env t with
         | Some url => st_messages w ++ [userMsg env t; captionMsg env url]
         | None =>
             streamed (Js.toString (now env 2))
               (delivered (chatWithLeoStream env t (historyOf r)))
               (st_messages w ++ [userMsg env t; placeholder env])
         end;
       st_input := "";
       st_leoState :=
         match imageObtained env t with
         | Some _ =>
             mkLeoState happy (isSpeaking (st_leoState w)) false (isLive (st_leoState w))
         | None =>
             replyState (chatWithLeoStream env t (historyOf r))
               (withThinking true (st_leoState w))
         end;
       inputAudioContext := true;
       outputAudioContext := true;
       liveSession := liveSession w;
       nextStartTime := nextStartTime w;
       activeSources := activeSources w;
       nextNode := nextNode w;
       effects :=
         effects w ++
         match imageObtained env t with
         | Some _ => [GenerateImage t]
         | None => attempt env t ++ [ChatRequest t (historyOf r)]
         end |}.
Proof.
  intros Ha t. rewrite (handleSend_accepted env r ov w Ha). fold t.
  destruct (imageObtained env t) as [url|].
  - cbv [imageReply submitted initAudioContexts setAudioContexts setLeoState
         setMessages setInput emit
         st_messages st_input st_leoState inputAudioContext outputAudioContext
         liveSession nextStartTime activeSources nextNode effects].
    rewrite <- ?app_assoc. f_equal.
  - rewrite textPath_closed, emitAll_closed.
    cbv [submitted initAudioContexts setAudioContexts setLeoState
         setMessages setInput emit
         st_messages st_input st_leoState inputAudioContext outputAudioContext
         liveSession nextStartTime activeSources nextNode effects].
    rewrite <- ?app_assoc. f_equal.
Qed.

Lemma replyState_flags o prev :
  isThinking (replyState o prev) = false /\
  isSpeaking (replyState o prev) = isSpeaking prev /\
  isLive (replyState o prev) = isLive prev.
Proof. destruct o as [|chunks []]; repeat split. Qed.

Lemma replyState_thinking o prev : isThinking (replyState o prev) = false.
Proof. apply replyState_flags. Qed.

Lemma replyState_speaking o prev : isSpeaking (replyState o prev) = isSpeaking prev.
Proof. apply replyState_flags. Qed.

(** *** The call, run by run *)

Lemma runAll_app runs1 runs2 w : runAll (runs1 ++ runs2) w = runAll runs2 (runAll runs1 w).
Proof. unfold runAll. apply fold_left_app. Qed.

Lemma streamLoop_runs leoId chunks fullText w :
  snd (streamLoop leoId chunks fullText w) = runAll (chunkRuns leoId chunks fullText) w.
Proof.
  revert fullText w. induction chunks as [|c cs IH]; intros fullText w; [reflexivity|].
  cbn [streamLoop chunkRuns]. rewrite IH. reflexivity.
Qed.

Lemma textPath_runs env r t w :
  textPath env r t w = runAll (startChat env r t :: streamRuns env r t) w.
Proof.
  change (runAll (startChat env r t :: streamRuns env r t) w)
    with (runAll (streamRuns env r t) (startChat env r t w)).
  unfold textPath, startChat, streamRuns. fold (historyOf r). fold (placeholder env).
  destruct (chatWithLeoStream env t (historyOf r)) as [|chunks ending];
    [reflexivity|].
  cbv zeta. rewrite streamLoop_runs, runAll_app. now destruct ending.
Qed.

(** The call is its pieces run one after another. *)
Lemma handleSend_runs env r ov w :
  handleSend env r ov w = runAll (sendRuns env r ov) w.
Proof.
  unfold handleSend, sendRuns.
  destruct (negb (Js.truthy (Js.trim (Js.orElse ov (input r))))
            || isThinking (leoState r)); [reflexivity|].
  cbv zeta. fold (userMsg env (Js.orElse ov (input r))).
  fold (submitted env (Js.orElse ov (input r)) w).
  destruct (isImageReq (Js.orElse ov (input r))); [|apply textPath_runs].
  destruct (generateLeoImage env (Js.orElse ov (input r))) as [[url|]|e];
    [destruct (Js.truthy url); [reflexivity|]| |]; apply textPath_runs.
Qed.

Lemma chunkRuns_flags leoId chunks fullText run v :
  In run (chunkRuns leoId chunks fullText) -> st_leoState (run v) = st_leoState v.
Proof.
  revert fullText. induction chunks as [|c cs IH]; intros fullText; [intros []|].
  intros [<-|H]; [reflexivity|]. now apply (IH _ H).
Qed.

Lemma streamRuns_flags env r t run v :
  In run (streamRuns env r t) ->
  st_leoState (run v) = st_leoState v \/
  st_leoState (run v) = concernedState (st_leoState v).
Proof.
  unfold streamRuns. destruct (chatWithLeoStream env t (historyOf r)) as [|chunks ending];
    [intros []|].
  intros H. apply in_app_iff in H as [H|H].
  - left. now apply (chunkRuns_flags _ _ _ _ _ H).
  - destruct ending; [destruct H|]. destruct H as [<-|[]]. now right.
Qed.

Lemma startChat_flags env r t v :
  isThinking (st_leoState (startChat env r t v)) = false /\
  isSpeaking (st_leoState (startChat env r t v)) = isSpeaking (st_leoState v) /\
  isLive (st_leoState (startChat env r t v)) = isLive (st_leoState v).
Proof.
  unfold startChat.
  destruct (chatWithLeoStream env t (historyOf r)); repeat split.
Qed.

(** X1. Every accepted call clears the thinking flag it raised, whatever
    runs between its pieces. The call has a piece, its first or its
    second (the second when it first awaits the image), that leaves
    [isThinking] false in whatever world it runs, and each piece of the
    call after that one either leaves the flags alone or writes the
    emotion [concerned] with [isThinking] false. *)
Theorem accepted_call_clears_thinking_itself env r ov :
  accepted r ov ->
  exists before clear after,
    sendRuns env r ov = before ++ clear :: after /\
    length before <= 1 /\
    (forall v, isThinking (st_leoState (clear v)) = false) /\
    (forall run, In run after ->
       forall v, st_leoState (run v) = st_leoState v \/
                 (emotion (st_leoState (run v)) = concerned /\
                  isThinking (st_leoState (run v)) = false)).
Proof.
  intros [Ht Hth]. unfold sendRuns.
  fold (textToSend r ov). set (t := textToSend r ov) in *.
  rewrite Ht, Hth. cbn [negb orb].
  assert (Hafter : forall run, In run (streamRuns env r t) ->
            forall v, st_leoState (run v) = st_leoState v \/
                      (emotion (st_leoState (run v)) = concerned /\
                       isThinking (st_leoState (run v)) = false)).
  { intros run Hin v.
    destruct (streamRuns_flags env r t run v Hin) as [H| ->]; [now left|].
    right. now split. }
  destruct (isImageReq t).
  - destruct (generateLeoImage env t) as [[url|]|e];
      [destruct (Js.truthy url)| |].
    + exists [fun w => emit (GenerateImage t) (submitted env t w)],
             (imageReply env url), [].
      split; [reflexivity|]. split; [simpl; lia|]. split; [reflexivity|].
      intros run [].
    + exists [fun w => emit (GenerateImage t) (submitted env t w)],
             (startChat env r t), (streamRuns env r t).
      split; [reflexivity|]. split; [simpl; lia|].
      split; [intros v; apply startChat_flags|exact Hafter].
    + exists [fun w => emit (GenerateImage t) (submitted env t w)],
             (startChat env r t), (streamRuns env r t).
      split; [reflexivity|]. split; [simpl; lia|].
      split; [intros v; apply startChat_flags|exact Hafter].
    + exists [fun w => emit (GenerateImage t) (submitted env t w)],
             (fun w => startChat env r t (emit (ConsoleError [e]) w)),
             (streamRuns env r t).
      split; [reflexivity|]. split; [simpl; lia|].
      split; [intros v; apply startChat_flags|exact Hafter].
  - exists [], (fun w => startChat env r t (submitted env t w)), (streamRuns env r t).
    split; [reflexivity|]. split; [simpl; lia|].
    split; [intros v; apply startChat_flags|exact Hafter].
Qed.

Lemma accepted_call_clears_thinking_itself_witness :
  let r := render (initialWorld 0) in
  accepted r (Some "generate a sunset") /\
  exists before clear after,
    sendRuns breaking r (Some "generate a sunset") = before ++ clear :: after /\
    length before <= 1 /\
    (forall v, isThinking (st_leoState (clear v)) = false) /\
    (forall run, In run after ->
       forall v, st_leoState (run v) = st_leoState v \/
                 (emotion (st_leoState (run v)) = concerned /\
                  isThinking (st_leoState (run v)) = false)).
Proof.
  intros r. split; [split; reflexivity|].
  exact (accepted_call_clears_thinking_itself breaking r
           (Some "generate a sunset") (conj eq_refl eq_refl)).
Defined.

(** X2. An accepted call empties the input field, also when its text
    came from the argument and not from the field, and it leaves both
    audio contexts created. *)
Theorem accepted_call_clears_input env r ov w :
  accepted r ov ->
  let w' := handleSend env r ov w in
  st_input w' = "" /\ inputAudioContext w' = true /\ outputAudioContext w' = true.
Proof.
  intros Ha w'. subst w'. rewrite (handleSend_world env r ov w Ha). repeat split.
Qed.

Lemma accepted_call_clears_input_witness :
  let w := setInput "a draft" (initialWorld 0) in
  accepted (render w) (Some "hi") /\
  st_input w = "a draft" /\
  st_input (handleSend ticking (render w) (Some "hi") w) = "".
Proof.
  intros w.
  pose proof (accepted_call_clears_input ticking (render w) (Some "hi") w
                (conj eq_refl eq_refl)) as H.
  cbv zeta in H. destruct H as (H1 & _).
  exact (conj (conj eq_refl eq_refl) (conj eq_refl H1)).
Defined.

(** X3. When the image service delivers, the call stops there: the text
    had image intent, the URL is not empty, the list ends with the user
    message and the caption carrying the URL, and no chat request is
    made. *)
Theorem image_reply_makes_no_chat_request env r ov w url :
  accepted r ov ->
  let t := textToSend r ov in
  let w' := handleSend env r ov w in
  imageObtained env t = Some url ->
  isImageReq t = true /\
  url <> "" /\
  st_messages w'
  = st_messages w ++
    [ mkMessage (Js.toString (now env 0)) user t (now env 1) None None None;
      mkMessage (Js.toString (now env 2)) leo captionText (now env 3) None None (Some url) ] /\
  chatRequests (effects w') = chatRequests (effects w) /\
  imageRequests (effects w') = imageRequests (effects w) ++ [t].
Proof.
  intros Ha t w' Hi. subst w'. rewrite (handleSend_world env r ov w Ha). fold t.
  rewrite Hi. cbn [st_messages effects].
  rewrite chatRequests_app, imageRequests_app. simpl. rewrite app_nil_r.
  repeat split; try reflexivity.
  - now apply imageObtained_intent in Hi.
  - unfold imageObtained in Hi. destruct (isImageReq t); [|discriminate].
    destruct (generateLeoImage env t) as [[u|]|e]; try discriminate.
    destruct (Js.truthy u) eqn:Hu; [|discriminate].
    injection Hi as <-. intros ->. discriminate.
Qed.

Lemma image_reply_makes_no_chat_request_witness :
  let w := initialWorld 0 in
  let w' := handleSend painting (render w) (Some "create a cat") w in
  accepted (render w) (Some "create a cat") /\
  imageObtained painting "create a cat" = Some "data:image/png;base64,AAAA" /\
  chatRequests (effects w') = [] /\
  imageRequests (effects w') = ["create a cat"].
Proof.
  intros w w'.
  pose proof (image_reply_makes_no_chat_request painting (render w)
                (Some "create a cat") w "data:image/png;base64,AAAA"
                (conj eq_refl eq_refl) eq_refl) as H.
  cbv zeta in H. destruct H as (_ & _ & _ & H4 & H5).
  exact (conj (conj eq_refl eq_refl) (conj eq_refl (conj H4 H5))).
Defined.

Lemma streamed_other leoId chunks l :
  Forall (fun m => id m <> leoId) l -> streamed leoId chunks l = l.
Proof. destruct chunks; [reflexivity|apply setTextById_other]. Qed.

(** The last message after an accepted call is the reply. *)
Lemma handleSend_last env r ov w :
  accepted r ov ->
  last (st_messages (handleSend env r ov w))
  = Some (replyMsg env r (textToSend r ov)).
Proof.
  intros Ha. rewrite (handleSend_messages env r ov w Ha). unfold replyMsg.
  destruct (imageObtained _ _); [apply last_two|].
  change (st_messages w ++ [userMsg env (textToSend r ov); placeholder env])
    with (st_messages w ++ [userMsg env (textToSend r ov)] ++ [placeholder env]).
  rewrite app_assoc, streamed_snoc by reflexivity. apply last_snoc'.
Qed.

(** X4. When the id of the placeholder differs from the id of the new
    user message and from the ids of the messages already stored, the
    call leaves every text as it was: the list is the old one followed by
    the user message with the submitted text and the reply. *)
Theorem fresh_id_keeps_every_text env r ov w :
  accepted r ov ->
  let t := textToSend r ov in
  Forall (fun m => id m <> Js.toString (now env 2)) (st_messages w) ->
  Js.toString (now env 0) <> Js.toString (now env 2) ->
  st_messages (handleSend env r ov w)
  = st_messages w ++
    [ mkMessage (Js.toString (now env 0)) user t (now env 1) None None None;
      replyMsg env r t ].
Proof.
  intros Ha t Hold Hnew. rewrite (handleSend_messages env r ov w Ha). fold t.
  unfold replyMsg. destruct (imageObtained env t) as [url|]; [reflexivity|].
  change (st_messages w ++ [userMsg env t; placeholder env])
    with (st_messages w ++ [userMsg env t] ++ [placeholder env]).
  rewrite app_assoc, streamed_snoc by reflexivity.
  rewrite streamed_other.
  - now rewrite <- app_assoc.
  - apply Forall_app. split; [exact Hold|]. now repeat constructor.
Qed.

Lemma fresh_id_keeps_every_text_witness :
  let w := initialWorld 0 in
  accepted (render w) (Some "hi") /\
  st_messages (handleSend ticking (render w) (Some "hi") w)
  = st_messages w ++
    [ mkMessage "1700000000000" user "hi" 1700000000001 None None None;
      mkMessage "1700000000002" leo "Hello!" 1700000000003 None None None ].
Proof.
  intros w. split; [split; reflexivity|].
  apply (fresh_id_keeps_every_text ticking (render w) (Some "hi") w
           (conj eq_refl eq_refl)).
  - repeat constructor. discriminate.
  - discriminate.
Defined.

Lemma offAudio_attempt env t : forallb offAudio (attempt env t) = true.
Proof.
  unfold attempt, failedAttempt. destruct (isImageReq t); [|reflexivity].
  now destruct (generateLeoImage env t) as [[?|]|?].
Qed.

Lemma samePlayback_refl w : samePlayback w w.
Proof.
  repeat split. exists []. now rewrite app_nil_r.
Qed.

Lemma handleSend_playback env r ov w : samePlayback w (handleSend env r ov w).
Proof.
  destruct (handleSend_cases env r ov w) as [-> | Ha]; [apply samePlayback_refl|].
  rewrite (handleSend_world env r ov w Ha). unfold samePlayback.
  cbn [nextStartTime activeSources nextNode st_leoState effects].
  repeat split.
  - destruct (imageObtained _ _); [reflexivity|]. now rewrite replyState_speaking.
  - eexists. split; [reflexivity|].
    destruct (imageObtained _ _); [reflexivity|].
    rewrite forallb_app, offAudio_attempt. reflexivity.
Qed.

(** X5. No call of [handleSend], accepted or not, touches playback: the
    counter, the set of active sources, the node numbering, the speaking
    flag and the session ref are as before, and none of the effects it
    adds is a call on a source node. *)
Theorem handleSend_leaves_playback env r ov w :
  samePlayback w (handleSend env r ov w) /\
  liveSession (handleSend env r ov w) = liveSession w.
Proof.
  split; [apply handleSend_playback|].
  destruct (handleSend_cases env r ov w) as [-> | Ha]; [reflexivity|].
  now rewrite (handleSend_world env r ov w Ha).
Qed.

(** ** One call after another *)

Lemma last_cons_cons {A} (x y : A) l : last (x :: y :: l) = last (y :: l).
Proof. reflexivity. Qed.

Lemma last_skipn {A} (l : list A) k : k < length l -> last (skipn k l) = last l.
Proof.
  revert k. induction l as [|x l IH]; intros k Hk; simpl in Hk; [lia|].
  destruct k as [|k]; [reflexivity|].
  simpl. rewrite IH by lia. destruct l; [simpl in Hk; lia|reflexivity].
Qed.

Lemma last_sliceLast {A} (l : list A) n : 0 < n -> last (Js.sliceLast n l) = last l.
Proof.
  intros Hn. unfold Js.sliceLast. destruct l as [|x l]; [reflexivity|].
  apply last_skipn. simpl. lia.
Qed.

Lemma last_map {A B} (f : A -> B) l : last (map f l) = f <$> last l.
Proof.
  induction l as [|x [|y l] IH]; try reflexivity.
  change (map f (x :: y :: l)) with (f x :: f y :: map f l).
  rewrite !last_cons_cons. exact IH.
Qed.

Lemma handleSend_thinking_off env r ov w :
  accepted r ov -> isThinking (st_leoState (handleSend env r ov w)) = false.
Proof.
  intros Ha. rewrite (handleSend_world env r ov w Ha). cbn [st_leoState].
  destruct (imageObtained _ _); [reflexivity|apply replyState_thinking].
Qed.

(** X6. A call whose pieces run one after another, with no other call
    and no callback in between, leaves the component ready for the next
    call: the thinking flag is off and the emotion is [happy] after an
    image, [neutral] after a reply that streamed to its end and
    [concerned] otherwise; a handler made from the state it leaves
    accepts every text that is not blank, and the history that handler
    sends ends with the reply of this call, as a "model" entry holding
    the text the reply ended with. *)
Theorem uninterrupted_call_leaves_component_ready env r ov w r2 ov2 :
  accepted r ov ->
  let t := textToSend r ov in
  let w1 := runAll (sendRuns env r ov) w in
  let reply := replyMsg env r t in
  messages r2 = st_messages w1 ->
  leoState r2 = st_leoState w1 ->
  Js.truthy (Js.trim (textToSend r2 ov2)) = true ->
  isThinking (st_leoState w1) = false /\
  emotion (st_leoState w1)
  = match imageObtained env t with
    | Some _ => happy
    | None =>
        match chatWithLeoStream env t (historyOf r) with
        | ChatYields _ StreamDone => neutral
        | _ => concerned
        end
    end /\
  accepted r2 ov2 /\
  last (historyOf r2)
  = Some {| contentRole := "model"; parts := [ {| partText := text reply |} ] |}.
Proof.
  intros Ha t w1 reply Hm Hs Ht. subst w1.
  rewrite <- (handleSend_runs env r ov w) in *.
  assert (Hth : isThinking (st_leoState (handleSend env r ov w)) = false)
    by now apply handleSend_thinking_off.
  split; [exact Hth|]. split; [|split].
  - rewrite (handleSend_leoState env r ov w Ha). fold t.
    destruct (imageObtained env t); [reflexivity|].
    now destruct (chatWithLeoStream env t (historyOf r)) as [|chunks []].
  - split; [exact Ht|]. now rewrite Hs.
  - unfold historyOf. rewrite last_map, last_sliceLast by lia.
    rewrite Hm, (handleSend_last env r ov w Ha). fold t. fold reply.
    simpl. unfold toContent.
    assert (Hr : role reply = leo).
    { subst reply. unfold replyMsg. now destruct (imageObtained _ _). }
    now rewrite Hr.
Qed.

Lemma uninterrupted_call_leaves_component_ready_witness :
  let w := initialWorld 0 in
  let w1 := runAll (sendRuns ticking (render w) (Some "hi")) w in
  accepted (render w) (Some "hi") /\
  isThinking (st_leoState w1) = false /\
  emotion (st_leoState w1) = neutral /\
  accepted (render w1) (Some "and then?") /\
  last (historyOf (render w1))
  = Some {| contentRole := "model"; parts := [ {| partText := "Hello!" |} ] |}.
Proof.
  intros w w1. split; [split; reflexivity|].
  apply (uninterrupted_call_leaves_component_ready ticking (render w) (Some "hi") w
           (render w1) (Some "and then?") (conj eq_refl eq_refl));
    reflexivity.
Defined.

(** ** The submit button and the verify request *)

(** X7. The submit button is disabled exactly when submitting the form
    would be refused: with the button disabled [handleSend()] changes
    nothing, and with it enabled the call is accepted and adds its two
    messages. *)
Theorem submit_button_mirrors_the_guard env r w :
  if submitDisabled r
  then onSubmit env r w = w
  else accepted r None /\
       length (st_messages (onSubmit env r w)) = length (st_messages w) + 2.
Proof.
  unfold submitDisabled, onSubmit.
  destruct (Js.truthy (Js.trim (input r))) eqn:Ht;
    [destruct (isThinking (leoState r)) eqn:Hth|]; simpl.
  - unfold handleSend. simpl. now rewrite Ht, Hth.
  - assert (Ha : accepted r None) by (split; assumption).
    split; [exact Ha|]. now apply handleSend_length.
  - unfold handleSend. simpl. now rewrite Ht.
Qed.

Lemma matchLiteral_before_quote k s :
  forallb (fun a => negb (Ascii.eqb (Js.canonicalize a) (ascii_of_nat 34)))
    (list_ascii_of_string k) = true ->
  Js.matchLiteral k (s +:+ quote) = Js.matchLiteral k s.
Proof.
  revert s. induction k as [|a k IH]; intros s Hk; [reflexivity|].
  simpl in Hk. apply andb_true_iff in Hk as [Ha Hk].
  destruct s as [|b s].
  - simpl. change (Js.canonicalize (ascii_of_nat 34)) with (ascii_of_nat 34).
    apply negb_true_iff in Ha. now rewrite Ha.
  - rewrite append_cons. simpl. now rewrite IH.
Qed.

Lemma test_before_quote alts s :
  Forall (fun k => forallb (fun a => negb (Ascii.eqb (Js.canonicalize a) (ascii_of_nat 34)))
                     (list_ascii_of_string k) = true) alts ->
  Js.test alts (s +:+ quote) = Js.test alts s.
Proof.
  intros Halts.
  assert (Hex : forall u,
            existsb (fun p => Js.matchLiteral p (u +:+ quote)) alts
            = existsb (fun p => Js.matchLiteral p u) alts).
  { intros u. induction Halts as [|k alts Hk _ IH]; [reflexivity|].
    simpl. now rewrite IH, matchLiteral_before_quote. }
  induction s as [|c s IH].
  - change ("" +:+ quote) with quote. unfold quote at 1. cbn [Js.test].
    fold quote. change quote with ("" +:+ quote) at 1. rewrite Hex.
    cbn [Js.test]. now destruct (existsb _ alts).
  - rewrite append_cons. cbn [Js.test]. rewrite <- append_cons, Hex, IH.
    reflexivity.
Qed.

Lemma verifyText_prefix_has_no_intent t :
  isImageReq (verifyText t) = isImageReq (t +:+ quote).
Proof. vm_compute. reflexivity. Qed.

(** X8. A verify request is never blank, so it is refused only while
    thinking, and it is classified by the text it quotes: it has image
    intent exactly when that text has. *)
Theorem verify_request_is_classified_by_its_text env r t w :
  Js.truthy (Js.trim (verifyText t)) = true /\
  isImageReq (verifyText t) = isImageReq t /\
  (if isThinking (leoState r)
   then onVerify env r t w = w
   else imageRequests (effects (onVerify env r t w))
        = imageRequests (effects w) ++
          (if isImageReq t then [verifyText t] else [])).
Proof.
  assert (Htr : Js.truthy (Js.trim (verifyText t)) = true).
  { destruct (Js.trim (verifyText t)) eqn:E; [|reflexivity].
    apply trim_empty_iff_blank in E.
    specialize (E "D"%char (or_introl eq_refl)). discriminate. }
  assert (Hcl : isImageReq (verifyText t) = isImageReq t).
  { rewrite verifyText_prefix_has_no_intent. unfold isImageReq.
    apply test_before_quote. now repeat constructor. }
  split; [exact Htr|]. split; [exact Hcl|].
  unfold onVerify. destruct (isThinking (leoState r)) eqn:Hth.
  - unfold handleSend. rewrite Hth. now rewrite orb_true_r.
  - assert (Ht : textToSend r (Some (verifyText t)) = verifyText t).
    { unfold textToSend, Js.orElse.
      destruct (verifyText t) eqn:E; [discriminate|reflexivity]. }
    assert (Ha : accepted r (Some (verifyText t))).
    { split; [now rewrite Ht|exact Hth]. }
    rewrite (handleSend_effects env r _ w Ha), Ht, imageRequests_app.
    f_equal. rewrite <- Hcl.
    destruct (imageObtained env (verifyText t)) as [url|] eqn:Hi.
    + now rewrite (imageObtained_intent env _ url Hi).
    + rewrite imageRequests_app, imageRequests_attempt. simpl.
      now rewrite app_nil_r.
Qed.

Example verifying_the_welcome_message_asks_for_an_image :
  isImageReq (verifyText welcomeText) = true.
Proof. reflexivity. Qed.

(** ** More on [toggleLive] *)

(** X9. [toggleLive] never changes the React state, whatever the
    environment: the live flag only moves in [onopen] and [onclose].
    From a live render it asks for a reload and does nothing else; from
    any other render it leaves both audio contexts created and asks for
    no reload. *)
Theorem toggleLive_leaves_react_state env r w :
  let w' := fst (toggleLive env r w) in
  st_messages w' = st_messages w /\
  st_input w' = st_input w /\
  st_leoState w' = st_leoState w /\
  (if isLive (leoState r)
   then toggleLive env r w = (emit Reload w, Resolves)
   else inputAudioContext w' = true /\ outputAudioContext w' = true /\
        (forall added, effects w' = effects w ++ added -> ~ In Reload added)).
Proof.
  intros w'. subst w'. unfold toggleLive.
  destruct (isLive (leoState r)); [repeat split|].
  destruct (getGeminiClient env) as [|e];
    [destruct (getUserMedia env) as [|err]; [destruct (connect env) as [|e]|]|];
    cbn; repeat split; intros added Hadd.
  - rewrite <- app_assoc in Hadd. apply app_inv_head in Hadd as <-.
    simpl. intuition discriminate.
  - rewrite <- !app_assoc in Hadd. apply app_inv_head in Hadd as <-.
    simpl. intuition discriminate.
  - rewrite <- app_assoc in Hadd. apply app_inv_head in Hadd as <-.
    simpl. intuition discriminate.
  - rewrite <- (app_nil_r (effects w)) in Hadd at 1.
    apply app_inv_head in Hadd as <-. intros [].
Qed.

(** X10. With both audio contexts already created, so that line 60
    constructs nothing, the promise of [toggleLive] rejects exactly when
    the render is not live and [getGeminiClient] throws, and the error
    is the one thrown: that call is made before the [try]. A refused
    microphone and a [connect] call that throws are inside the [try] and
    do not reject it. (The promise that [connect] returns is not
    awaited; what becomes of it is not part of this statement.) *)
Theorem toggleLive_rejects_only_on_client_error env r w e :
  inputAudioContext w = true ->
  outputAudioContext w = true ->
  (snd (toggleLive env r w) = Rejects e
   <-> isLive (leoState r) = false /\ getGeminiClient env = Raises e).
Proof.
  intros _ _. unfold toggleLive. split.
  - destruct (isLive (leoState r)); [discriminate|].
    destruct (getGeminiClient env) as [|e'].
    + destruct (getUserMedia env); [destruct (connect env)|]; discriminate.
    + cbn. intros [= ->]. now split.
  - intros [-> ->]. reflexivity.
Qed.

Lemma toggleLive_rejects_only_on_client_error_witness :
  let w := initAudioContexts (initialWorld 0) in
  inputAudioContext w = true /\
  outputAudioContext w = true /\
  snd (toggleLive noClient (render w) w) = Rejects "API key missing".
Proof.
  intros w. split; [reflexivity|]. split; [reflexivity|].
  apply (toggleLive_rejects_only_on_client_error noClient (render w) w
           "API key missing" eq_refl eq_refl).
  split; reflexivity.
Defined.

Example client_error_asks_for_nothing r w :
  isLive (leoState r) = false ->
  effects (fst (toggleLive noClient r w)) = effects w.
Proof. intros H. unfold toggleLive. now rewrite H. Qed.

(** ** The life of a session *)

Lemma liveStep_isLive w ev :
  isLive (st_leoState (liveStep w ev))
  = match ev with
    | Open => true
    | Closed => false
    | _ => isLive (st_leoState w)
    end.
Proof.
  callback_cases w ev; try reflexivity.
  - simpl. unfold onmessage. rewrite Hmsg. cbn [fst].
    rewrite stop_all_closed, emitAll_closed. reflexivity.
  - simpl. unfold onended. cbn. now destruct (Nat.eqb _ 0).
Qed.

(** X11. Over any callbacks of the session, the live flag is decided by
    the last [onopen] or [onclose] among them: it is on after an
    [onopen], off after an [onclose], and no other callback (message,
    decoded frame, ended source, error) moves it. *)
Theorem live_flag_follows_open_and_close evs w :
  isLive (st_leoState (liveRun evs w)) = openAfter (isLive (st_leoState w)) evs.
Proof.
  revert w. induction evs as [|ev evs IH]; intros w; [reflexivity|].
  change (liveRun (ev :: evs) w) with (liveRun evs (liveStep w ev)).
  rewrite IH, liveStep_isLive. now destruct ev.
Qed.

Example error_does_not_close :
  isLive (st_leoState (liveRun [Open; Failed "socket"; Incoming audioFrame]
                         (initialWorld 0))) = true.
Proof. reflexivity. Qed.

(** ** The session and the conversation *)

Lemma interrupt_world msg w :
  interrupted msg = true ->
  liveStep w (Incoming msg)
  = mkWorld (st_messages w) (st_input w) (st_leoState w) (inputAudioContext w)
      (outputAudioContext w) (liveSession w) 0%N [] (nextNode w)
      (effects w ++ map SourceStop (activeSources w)).
Proof.
  intros H. simpl. unfold onmessage. rewrite H. cbn [fst].
  now rewrite stop_all_closed, emitAll_closed.
Qed.

Lemma onended_world source w :
  onended source w
  = mkWorld (st_messages w) (st_input w)
      (if Nat.eqb (length (Js.setDelete source (activeSources w))) 0
       then withSpeaking false (st_leoState w) else st_leoState w)
      (inputAudioContext w) (outputAudioContext w) (liveSession w)
      (nextStartTime w) (Js.setDelete source (activeSources w)) (nextNode w) (effects w).
Proof. unfold onended. cbn. now destruct (Nat.eqb _ 0). Qed.

Lemma chatRequests_stops l : chatRequests (map SourceStop l) = [].
Proof. induction l; simpl; auto. Qed.

Lemma imageRequests_stops l : imageRequests (map SourceStop l) = [].
Proof. induction l; simpl; auto. Qed.

Lemma liveStep_conversation w ev :
  st_messages (liveStep w ev) = st_messages w /\
  st_input (liveStep w ev) = st_input w /\
  chatRequests (effects (liveStep w ev)) = chatRequests (effects w) /\
  imageRequests (effects (liveStep w ev)) = imageRequests (effects w).
Proof.
  callback_cases w ev; try (now repeat split).
  - cbn. rewrite chatRequests_app, imageRequests_app. simpl.
    now rewrite !app_nil_r.
  - rewrite (interrupt_world _ w Hmsg). cbn.
    rewrite chatRequests_app, imageRequests_app, chatRequests_stops,
      imageRequests_stops. now rewrite !app_nil_r.
  - cbn. rewrite chatRequests_app, imageRequests_app. simpl.
    now rewrite !app_nil_r.
  - simpl. rewrite onended_world. now repeat split.
  - cbn. rewrite chatRequests_app, imageRequests_app. simpl.
    now rewrite !app_nil_r.
Qed.

(** X12. The voice session never writes to the conversation: over any
    callbacks the message list and the input field stay as they are,
    and no chat or image request is made. *)
Theorem live_session_leaves_conversation evs w :
  let w' := liveRun evs w in
  st_messages w' = st_messages w /\
  st_input w' = st_input w /\
  chatRequests (effects w') = chatRequests (effects w) /\
  imageRequests (effects w') = imageRequests (effects w).
Proof.
  revert w. induction evs as [|ev evs IH]; intros w; [now repeat split|].
  change (liveRun (ev :: evs) w) with (liveRun evs (liveStep w ev)).
  destruct (IH (liveStep w ev)) as (H1 & H2 & H3 & H4).
  destruct (liveStep_conversation w ev) as (E1 & E2 & E3 & E4).
  cbv zeta. now rewrite H1, H2, H3, H4, E1, E2, E3, E4.
Qed.

Lemma toggleLive_messages env r w :
  st_messages (fst (toggleLive env r w)) = st_messages w.
Proof.
  unfold toggleLive. destruct (isLive (leoState r)); [reflexivity|].
  destruct (getGeminiClient env);
    [destruct (getUserMedia env); [destruct (connect env)|]|]; reflexivity.
Qed.

(** X13. The message list is append-only over the whole life of the
    component: after any sequence of handler calls and callbacks, the
    messages that were stored are still there, in their places, with
    every field but [text] as it was, followed by the messages added
    since. *)
Theorem conversation_is_append_only es w :
  exists added,
    Forall2 sameButText (st_messages (appRun es w)) (st_messages w ++ added).
Proof.
  revert w. induction es as [|e es IH]; intros w.
  - exists []. rewrite app_nil_r. simpl. auto with msgs.
  - change (appRun (e :: es) w) with (appRun es (appStep w e)).
    destruct (IH (appStep w e)) as [a2 H2].
    assert (H1 : exists a1, Forall2 sameButText (st_messages (appStep w e))
                              (st_messages w ++ a1)).
    { destruct e as [env r ov|env r|ev]; simpl.
      - apply handleSend_keeps_fields.
      - exists []. rewrite toggleLive_messages, app_nil_r. auto with msgs.
      - exists []. destruct (liveStep_conversation w ev) as (-> & _).
        rewrite app_nil_r. auto with msgs. }
    destruct H1 as [a1 H1]. exists (a1 ++ a2). rewrite app_assoc.
    eapply Forall2_sameButText_trans; [exact H2|].
    apply Forall2_app; [exact H1|auto with msgs].
Qed.

(** ** The books on source nodes *)

Lemma offAudio_quiet added :
  forallb offAudio added = true ->
  started added = [] /\ stopped added = [] /\ scheduled added = [].
Proof.
  induction added as [|e added IH]; [now repeat split|].
  simpl. intros H. apply andb_true_iff in H as [He H].
  destruct (IH H) as (H1 & H2 & H3). now destruct e.
Qed.

Lemma toggleLive_playback env r w : samePlayback w (fst (toggleLive env r w)).
Proof.
  unfold toggleLive, samePlayback. destruct (isLive (leoState r)).
  - cbn. repeat split. now exists [Reload].
  - destruct (getGeminiClient env) as [|e];
      [destruct (getUserMedia env) as [|err]; [destruct (connect env) as [|e]|]|];
      cbn; repeat split.
    + exists [GetUserMedia; LiveConnect]. now rewrite <- !app_assoc.
    + exists [GetUserMedia; LiveConnect; ConsoleError ["Mic Access Failed:"; e]].
      now rewrite <- !app_assoc.
    + exists [GetUserMedia; ConsoleError ["Mic Access Failed:"; err]].
      now rewrite <- !app_assoc.
    + exists []. now rewrite app_nil_r.
Qed.

Lemma samePlayback_bookkept w w' : samePlayback w w' -> bookkept w -> bookkept w'.
Proof.
  intros (_ & Ha & Hn & _ & added & He & Hq) (B1 & B2 & B3 & B4).
  destruct (offAudio_quiet added Hq) as (S1 & S2 & _).
  unfold bookkept, numbered.
  rewrite He, Ha, Hn, started_app, stopped_app, S1, S2, !app_nil_r.
  exact (conj B1 (conj B2 (conj B3 B4))).
Qed.

Lemma liveStep_bookkept w ev : bookkept w -> bookkept (liveStep w ev).
Proof.
  intros (B1 & B2 & B3 & B4). unfold bookkept.
  split; [|split; [now apply liveStep_numbered|]].
  - callback_cases w ev; try exact B1.
    + cbn. now rewrite started_app, app_nil_r.
    + now rewrite (interrupt_effects _ w Hmsg), started_app, started_stops, app_nil_r.
    + cbn. rewrite started_app. cbn. apply NoDup_app. split; [exact B1|].
      split; [|apply NoDup_singleton].
      intros s Hs Hs'. apply list_elem_of_In in Hs. apply B2 in Hs.
      apply list_elem_of_singleton in Hs'. subst s. lia.
    + simpl. now rewrite onended_world.
    + cbn. now rewrite started_app, app_nil_r.
  - callback_cases w ev; try (split; assumption).
    + cbn. rewrite started_app, stopped_app, !app_nil_r. now split.
    + rewrite (interrupt_world _ w Hmsg). cbn.
      rewrite started_app, stopped_app, started_stops, stopped_stops, app_nil_r.
      split.
      * intros s Hs. apply in_app_iff in Hs as [Hs|Hs]; [now apply B3|].
        apply list_elem_of_In in Hs. now apply B4.
      * intros s Hs. now apply not_elem_of_nil in Hs.
    + cbn. rewrite started_app, stopped_app, app_nil_r. cbn. split.
      * intros s Hs. apply in_app_iff. left. now apply B3.
      * intros s Hs. apply elem_of_setAdd in Hs as [Hs|Hs].
        -- subst s. split.
           ++ apply in_app_iff. right. now left.
           ++ intros Hst. apply B3, B2 in Hst. lia.
        -- destruct (B4 s Hs) as [Hst Hnst]. split; [|exact Hnst].
           apply in_app_iff. now left.
    + simpl. rewrite onended_world. cbn. split; [exact B3|].
      intros s Hs. apply elem_of_setDelete in Hs as [Hs _]. now apply B4.
    + cbn. rewrite started_app, stopped_app, !app_nil_r. now split.
Qed.

Lemma bookkept_initial t0 : bookkept (initialWorld t0).
Proof.
  split; [constructor|]. split; [intros s []|]. split; [intros s []|].
  intros s Hs. now apply not_elem_of_nil in Hs.
Qed.

Lemma appStep_bookkept w e : bookkept w -> bookkept (appStep w e).
Proof.
  destruct e as [env r ov|env r|ev]; simpl.
  - apply samePlayback_bookkept, handleSend_playback.
  - apply samePlayback_bookkept, toggleLive_playback.
  - apply liveStep_bookkept.
Qed.

(** X14. The books on source nodes stay in order over the whole life of
    the component: after any sequence of handler calls and callbacks no
    node has been started twice, [stop] has only been called on started
    nodes, and every active node has been started and not stopped. *)
Theorem source_nodes_stay_bookkept es w0 :
  bookkept w0 ->
  let w := appRun es w0 in
  NoDup (started (effects w)) /\
  (forall s, In s (stopped (effects w)) -> In s (started (effects w))) /\
  (forall s, s ∈ activeSources w ->
     In s (started (effects w)) /\ ~ In s (stopped (effects w))).
Proof.
  intros H0 w. subst w.
  assert (H : bookkept (appRun es w0)).
  { revert w0 H0. induction es as [|e es IH]; intros w0 H0; [exact H0|].
    apply (IH (appStep w0 e)). now apply appStep_bookkept. }
  destruct H as (B1 & _ & B3 & B4). exact (conj B1 (conj B3 B4)).
Qed.

Lemma source_nodes_stay_bookkept_witness :
  let w := appRun [Toggle micGranted (render (initialWorld 0)); Callback Open;
                   Callback (Decoded {| duration := 5 |} 10);
                   Callback (Incoming interruption)]
             (initialWorld 0) in
  bookkept (initialWorld 0) /\
  NoDup (started (effects w)) /\
  (forall s, In s (stopped (effects w)) -> In s (started (effects w))) /\
  (forall s, s ∈ activeSources w ->
     In s (started (effects w)) /\ ~ In s (stopped (effects w))).
Proof.
  intros w. split; [apply bookkept_initial|].
  apply (source_nodes_stay_bookkept _ (initialWorld 0) (bookkept_initial 0)).
Defined.

(** ** The speaking flag *)

Lemma schedule_world buffer currentTime w :
  schedule buffer currentTime w
  = mkWorld (st_messages w) (st_input w) (withSpeaking true (st_leoState w))
      (inputAudioContext w) (outputAudioContext w) (liveSession w)
      (N.max (nextStartTime w) currentTime + duration buffer)%N
      (Js.setAdd (nextNode w) (activeSources w)) (Pos.succ (nextNode w))
      (effects w ++ [SourceStart (nextNode w) (N.max (nextStartTime w) currentTime) buffer]).
Proof. reflexivity. Qed.

Lemma setDelete_nil_iff (source : SourceNode) s :
  Js.setDelete source s = [] <-> s ⊆ [source].
Proof.
  split.
  - intros H x Hx. apply list_elem_of_singleton.
    destruct (decide (x = source)) as [->|Hne]; [reflexivity|].
    assert (Hin : x ∈ Js.setDelete source s) by now apply elem_of_setDelete.
    rewrite H in Hin. now apply not_elem_of_nil in Hin.
  - intros Hsub. destruct (Js.setDelete source s) as [|x l] eqn:E; [reflexivity|].
    assert (Hin : x ∈ Js.setDelete source s) by (rewrite E; left).
    apply elem_of_setDelete in Hin as [Hx Hne].
    apply Hsub, list_elem_of_singleton in Hx. contradiction.
Qed.

Lemma liveStep_speaking w ev :
  (activeSources w <> [] -> isSpeaking (st_leoState w) = true) ->
  activeSources (liveStep w ev) <> [] ->
  isSpeaking (st_leoState (liveStep w ev)) = true.
Proof.
  intros Hw. callback_cases w ev; try exact Hw.
  - rewrite (interrupt_world _ w Hmsg). intros H. now destruct H.
  - cbn [liveStep]. now rewrite schedule_world.
  - cbn [liveStep]. rewrite onended_world.
    cbn [activeSources st_leoState]. intros H.
    destruct (Js.setDelete source (activeSources w)) as [|x l] eqn:E;
      [now destruct H|].
    cbn [length Nat.eqb]. apply Hw. intros He. rewrite He in E. discriminate E.
Qed.

Lemma appStep_speaking w e :
  (activeSources w <> [] -> isSpeaking (st_leoState w) = true) ->
  activeSources (appStep w e) <> [] ->
  isSpeaking (st_leoState (appStep w e)) = true.
Proof.
  intros Hw. destruct e as [env r ov|env r|ev]; simpl.
  - destruct (handleSend_playback env r ov w) as (_ & -> & _ & -> & _). exact Hw.
  - destruct (toggleLive_playback env r w) as (_ & -> & _ & -> & _). exact Hw.
  - now apply liveStep_speaking.
Qed.

(** X15. While a source is active the speaking flag is on: if that
    holds at some point, it holds after any sequence of handler calls
    and callbacks. *)
Theorem speaking_while_a_source_is_active es w0 :
  (activeSources w0 <> [] -> isSpeaking (st_leoState w0) = true) ->
  let w := appRun es w0 in
  activeSources w <> [] -> isSpeaking (st_leoState w) = true.
Proof.
  intros H0 w. subst w. revert w0 H0.
  induction es as [|e es IH]; intros w0 H0; [exact H0|].
  apply (IH (appStep w0 e)). now apply appStep_speaking.
Qed.

Lemma speaking_while_a_source_is_active_witness :
  let w := appRun [Callback (Decoded {| duration := 5 |} 10);
                   Send ticking (render (initialWorld 0)) (Some "hi");
                   Callback (Decoded {| duration := 5 |} 12);
                   Callback (Ended 1%positive)]
             (initialWorld 0) in
  (activeSources (initialWorld 0) <> [] ->
   isSpeaking (st_leoState (initialWorld 0)) = true) /\
  (activeSources w <> [] -> isSpeaking (st_leoState w) = true).
Proof.
  intros w.
  assert (H0 : activeSources (initialWorld 0) <> [] ->
               isSpeaking (st_leoState (initialWorld 0)) = true).
  { intros H. now destruct H. }
  split; [exact H0|].
  apply (speaking_while_a_source_is_active _ (initialWorld 0) H0).
Defined.

(** X16. An interruption leaves the speaking flag as it is; the flag is
    cleared by the next [onended], whichever source it is for, since
    the active set is then empty. In general [onended] clears the flag
    exactly when no other source is left active. *)
Theorem interruption_leaves_speaking_until_ended msg w :
  interrupted msg = true ->
  let w1 := liveStep w (Incoming msg) in
  isSpeaking (st_leoState w1) = isSpeaking (st_leoState w) /\
  (forall source, isSpeaking (st_leoState (liveStep w1 (Ended source))) = false) /\
  (forall v source,
     isSpeaking (st_leoState (liveStep v (Ended source)))
     = if decide (activeSources v ⊆ [source]) then false
       else isSpeaking (st_leoState v)).
Proof.
  intros Hi w1.
  assert (Hgen : forall v source,
            isSpeaking (st_leoState (liveStep v (Ended source)))
            = if decide (activeSources v ⊆ [source]) then false
              else isSpeaking (st_leoState v)).
  { intros v source. cbn [liveStep]. rewrite onended_world. cbn [st_leoState].
    destruct (decide (activeSources v ⊆ [source])) as [Hsub|Hn].
    - apply setDelete_nil_iff in Hsub. now rewrite Hsub.
    - destruct (Js.setDelete source (activeSources v)) as [|x l] eqn:E;
        [|reflexivity].
      destruct Hn. now apply setDelete_nil_iff. }
  subst w1. rewrite (interrupt_world msg w Hi) at 1. split; [reflexivity|].
  split; [|exact Hgen].
  intros source. rewrite Hgen, (interrupt_world msg w Hi). cbn [activeSources].
  destruct (decide ([] ⊆ [source])) as [|Hn]; [reflexivity|].
  destruct Hn. intros x Hx. now apply not_elem_of_nil in Hx.
Qed.

Lemma interruption_leaves_speaking_until_ended_witness :
  let w := liveRun twoFrames (initialWorld 0) in
  let w1 := liveStep w (Incoming interruption) in
  interrupted interruption = true /\
  isSpeaking (st_leoState w1) = true /\
  isSpeaking (st_leoState (liveStep w1 (Ended 1%positive))) = false.
Proof.
  intros w w1.
  pose proof (interruption_leaves_speaking_until_ended interruption w eq_refl) as H.
  cbv zeta in H. destruct H as (H1 & H2 & _).
  exact (conj eq_refl (conj H1 (H2 1%positive))).
Defined.

(** ** Frames reach the decoder *)

Lemma liveStep_output w ev :
  outputAudioContext (liveStep w ev) = outputAudioContext w.
Proof.
  callback_cases w ev; try reflexivity.
  - now rewrite (interrupt_world _ w Hmsg).
  - cbn [liveStep]. now rewrite onended_world.
Qed.

Lemma appStep_output w e :
  outputAudioContext w = true -> outputAudioContext (appStep w e) = true.
Proof.
  intros Hw. destruct e as [env r ov|env r|ev]; simpl.
  - destruct (handleSend_cases env r ov w) as [-> | Ha]; [exact Hw|].
    now rewrite (handleSend_world env r ov w Ha).
  - unfold toggleLive. destruct (isLive (leoState r)); [exact Hw|].
    destruct (getGeminiClient env);
      [destruct (getUserMedia env); [destruct (connect env)|]|]; reflexivity.
  - now rewrite liveStep_output.
Qed.

(** X17. Once [toggleLive] has run from a render that is not live, no
    audio frame is dropped for want of an output context: whatever
    handler calls and callbacks follow, a message that is not an
    interruption and carries a non-empty audio payload is handed to the
    decoder with its payload. *)
Theorem frames_reach_the_decoder env r w es msg data :
  isLive (leoState r) = false ->
  interrupted msg = false ->
  audioData msg = Some data ->
  Js.truthy data = true ->
  let w' := appRun es (fst (toggleLive env r w)) in
  onmessage msg w' = (w', Some data).
Proof.
  intros Hr Hi Hd Ht w'.
  assert (Hout : outputAudioContext w' = true).
  { subst w'.
    assert (H1 : outputAudioContext (fst (toggleLive env r w)) = true).
    { unfold toggleLive. rewrite Hr.
      destruct (getGeminiClient env);
        [destruct (getUserMedia env); [destruct (connect env)|]|]; reflexivity. }
    revert H1. generalize (fst (toggleLive env r w)).
    induction es as [|e es IH]; intros v Hv; [exact Hv|].
    apply (IH (appStep v e)). now apply appStep_output. }
  unfold onmessage. now rewrite Hi, Hd, Ht, Hout.
Qed.

Lemma frames_reach_the_decoder_witness :
  let w' := appRun [Callback Open]
              (fst (toggleLive micGranted (render (initialWorld 0)) (initialWorld 0))) in
  isLive (leoState (render (initialWorld 0))) = false /\
  onmessage audioFrame w' = (w', Some "AAAA").
Proof.
  intros w'. split; [reflexivity|].
  apply (frames_reach_the_decoder micGranted (render (initialWorld 0)) (initialWorld 0)
           [Callback Open] audioFrame "AAAA"); reflexivity.
Defined.

(** Before any handler has run there is no output context, and a frame
    is dropped. *)
Example frame_without_context_is_dropped :
  onmessage audioFrame (initialWorld 0) = (initialWorld 0, None).
Proof. reflexivity. Qed.

(** ** Gapless playback *)

Lemma lastEnd_cons c i l : lastEnd c (i :: l) = lastEnd (snd i) l.
Proof. reflexivity. Qed.

(** X18. Frames that are each decoded no later than the counter stands
    are played end to end: the first starts where the counter stood,
    each next one starts where the one before ends, and the counter is
    left at the end of the last one. Each end is the start plus the
    duration, added in the order in which the code adds them. *)
Theorem frames_on_time_play_end_to_end frames w :
  onTime (nextStartTime w) frames ->
  let w' := liveRun (decodedAll frames) w in
  scheduled (effects w')
  = scheduled (effects w) ++ endToEnd (nextStartTime w) frames /\
  nextStartTime w' = lastEnd (nextStartTime w) (endToEnd (nextStartTime w) frames).
Proof.
  revert w. induction frames as [|[buffer currentTime] frames IH]; intros w H.
  - simpl. rewrite app_nil_r. split; reflexivity.
  - destruct H as [Ht H].
    change (liveRun (decodedAll ((buffer, currentTime) :: frames)) w)
      with (liveRun (decodedAll frames) (schedule buffer currentTime w)).
    assert (Hc : nextStartTime (schedule buffer currentTime w)
                 = (nextStartTime w + duration buffer)%N).
    { rewrite schedule_world. cbn [nextStartTime]. now rewrite N.max_l. }
    rewrite <- Hc in H. destruct (IH _ H) as [E1 E2].
    cbv zeta. rewrite E1, E2, Hc. split.
    + rewrite schedule_world. cbn [effects]. rewrite scheduled_app. simpl.
      rewrite N.max_l by exact Ht. now rewrite <- app_assoc.
    + cbn [endToEnd]. now rewrite lastEnd_cons.
Qed.

Lemma frames_on_time_play_end_to_end_witness :
  let w := liveRun [Decoded {| duration := 5 |} 10] (initialWorld 0) in
  let frames := [({| duration := 5 |}, 12%N); ({| duration := 3 |}, 19%N)] in
  onTime (nextStartTime w) frames /\
  scheduled (effects (liveRun (decodedAll frames) w))
  = [(10, 15); (15, 20); (20, 23)]%N /\
  nextStartTime (liveRun (decodedAll frames) w) = 23%N.
Proof.
  intros w frames.
  assert (H : onTime (nextStartTime w) frames).
  { repeat split; vm_compute; discriminate. }
  split; [exact H|].
  exact (frames_on_time_play_end_to_end frames w H).
Defined.
